(** * The basics tutorial of zuko, over a model of its tensor framework

    The tutorial (docs/tutorials/basics.ipynb) builds distributions and
    transformations, pushes a base distribution through a transformation
    (a normalizing flow), defines the lazy module [GaussianModel] and trains
    it for eight steps.

    Conventions of the embedding.
    - A tensor element is a real number: rounding, overflow, underflow and
      NaN of the floating-point formats are not represented.  The module
      [float32] gives, apart from the tensors, the binary32 arithmetic of
      an affine map, to compare the two where a property depends on it.
    - A tensor is a vector of elements; a tensor of one element stands for a
      0-d tensor and broadcasts against any vector.  A context is one
      vector; batches of contexts are not represented.
    - Parameters of modules ([torch.nn.Parameter]) live in a store and are
      updated in place; a tensor is either a view of a parameter or owns
      values that nothing in the tutorial mutates.
    - Every tensor carries its autograd edge ([grad_fn]).
    - The draws of the random generator are a sequence held by the state;
      the initial values of a linear layer are draws of it.  The gradient
      computation and the update rule of the optimizer belong to the
      framework and are parameters of the development. *)

From Stdlib Require Import Reals Lra Lia ZArith SpecFloat.
From stdpp Require Import base option list.

Open Scope R_scope.

#[global] Instance Rlt_decision (x y : R) : Decision (x < y) := Rlt_dec x y.
#[global] Instance Rle_decision (x y : R) : Decision (x <= y) := Rle_dec x y.

(** ** Interpreter state *)

Abbreviation addr := nat.

Record state := State {
  params : list (list R);            (* storage of each parameter *)
  grads : list (option (list R));    (* [.grad] of each parameter *)
  entropy : nat -> R;                (* the draws of the default generator *)
  generator : nat;                   (* how many of them were consumed *)
  grad_enabled : bool;               (* [torch.is_grad_enabled()] *)
  constructed : nat                  (* distribution objects built so far *)
}.

(** The state after one more distribution object was built. *)
Definition built (s : state) : state :=
  State (params s) (grads s) (entropy s) (generator s) (grad_enabled s)
    (S (constructed s)).

(** The state after [n] more draws from the generator. *)
Definition advance (n : nat) (s : state) : state :=
  State (params s) (grads s) (entropy s) (generator s + n) (grad_enabled s)
    (constructed s).

Inductive exn := ValueError | RuntimeError | TypeError.

Inductive outcome (A : Type) :=
| Ok (a : A) (s : state)
| Raise (e : exn).
Arguments Ok {A} a s.
Arguments Raise {A} e.

Definition M (A : Type) : Type := state -> outcome A.

Definition ret {A} (a : A) : M A := fun s => Ok a s.

Definition bind {A B} (m : M A) (k : A -> M B) : M B := fun s =>
  match m s with
  | Ok a s' => k a s'
  | Raise e => Raise e
  end.

Definition raise {A} (e : exn) : M A := fun _ => Raise e.

Notation "x <- m ;; k" := (bind m (fun x => k))
  (at level 100, m at next level, right associativity).
Notation "m ;;; k" := (bind m (fun _ => k))
  (at level 100, right associativity).

(** ** Tensors and their autograd edges *)

Inductive op :=
| AddBackward0 | SubBackward0 | MulBackward0 | DivBackward0 | NegBackward0
| PowBackward0 | ExpBackward0 | LogBackward0 | AbsBackward0 | SumBackward0
| ProdBackward0 | ReluBackward0 | UnbindBackward0 | ExpandBackward0
| LinearBackward | NormalBackward.

(** A node of the graph keeps the values of its operands ([saved]) and the
    nodes of those operands that take part in differentiation ([next]). *)
#[warnings="-register-all"] Inductive node :=
| AccumulateGrad (p : addr)
| Backward (f : op) (saved : list (list R)) (next : list node).

Inductive storage :=
| Owned (values : list R)
| View (p : addr).

Record Tensor := { storage_of : storage; grad_fn : option node }.

(** [torch.tensor(v)] *)
Definition tensor (v : list R) : Tensor :=
  {| storage_of := Owned v; grad_fn := None |}.

(** A Python number used as an operand. *)
Definition scalar (x : R) : Tensor := tensor [x].

Definition parameter (p : addr) : Tensor :=
  {| storage_of := View p; grad_fn := None |}.

Definition data (s : state) (t : Tensor) : option (list R) :=
  match storage_of t with
  | Owned v => Some v
  | View p => params s !! p
  end.

Definition requires_grad (t : Tensor) : bool :=
  match storage_of t, grad_fn t with
  | View _, _ => true
  | Owned _, Some _ => true
  | Owned _, None => false
  end.

Definition edge (t : Tensor) : option node :=
  match grad_fn t, storage_of t with
  | Some n, _ => Some n
  | None, View p => Some (AccumulateGrad p)
  | None, Owned _ => None
  end.

(** The parameters a graph reaches. *)
Fixpoint leaves (n : node) : list addr :=
  match n with
  | AccumulateGrad p => [p]
  | Backward _ _ next => concat (map leaves next)
  end.

(** The tensor an operation returns: it owns [v]; it is attached to the
    graph when gradients are enabled and an operand requires them. *)
Definition result (s : state) (f : op) (inputs : list Tensor) (v : list R)
  : Tensor :=
  {| storage_of := Owned v;
     grad_fn :=
       match omap edge inputs with
       | [] => None
       | next =>
           if grad_enabled s
           then Some (Backward f (omap (data s) inputs) next)
           else None
       end |}.

(** Broadcasting of two vectors: equal lengths, or one of them a single
    element. *)
Definition broadcast {A} (g : R -> R -> A) (x y : list R) : option (list A) :=
  if decide (length x = length y) then Some (zip_with g x y)
  else match x, y with
       | [a], _ => Some (map (g a) y)
       | _, [b] => Some (map (fun a => g a b) x)
       | _, _ => None
       end.

(** Modelled from the spec: the tensor framework ([torch]) is not among
    the sources.  Each function below is the operation of that name on
    vectors of reals, with the node it records in the graph; of the node
    names, the tutorial shows [SubBackward0] and [AddBackward0].  Where
    the program returns an infinity or a NaN (a division by zero, the
    logarithm of a number that is not positive), [div] and [log] return
    the value of the total functions of the reals; the properties below
    are stated away from these points. *)
Module torch.

Definition unary (f : op) (g : R -> R) (a : Tensor) : M Tensor := fun s =>
  match data s a with
  | Some x => Ok (result s f [a] (map g x)) s
  | None => Raise RuntimeError
  end.

Definition binary (f : op) (g : R -> R -> R) (a b : Tensor) : M Tensor :=
  fun s =>
  match data s a, data s b with
  | Some x, Some y =>
      match broadcast g x y with
      | Some v => Ok (result s f [a; b] v) s
      | None => Raise RuntimeError
      end
  | _, _ => Raise RuntimeError
  end.

Definition reduce (f : op) (g : list R -> R) (a : Tensor) : M Tensor :=
  fun s =>
  match data s a with
  | Some x => Ok (result s f [a] [g x]) s
  | None => Raise RuntimeError
  end.

Definition add := binary AddBackward0 Rplus.
Definition sub := binary SubBackward0 Rminus.
Definition mul := binary MulBackward0 Rmult.
Definition div := binary DivBackward0 Rdiv.
Definition neg := unary NegBackward0 Ropp.
Definition pow (a : Tensor) (n : nat) := unary PowBackward0 (fun x => x ^ n) a.
Definition exp := unary ExpBackward0 Rtrigo_def.exp.
Definition log := unary LogBackward0 ln.
Definition abs := unary AbsBackward0 Rabs.
Definition relu := unary ReluBackward0 (Rmax 0).
Definition sum := reduce SumBackward0 (foldr Rplus 0).
Definition prod := reduce ProdBackward0 (foldr Rmult 1).

(** [t.unbind(dim=-1)] of a vector: its elements, as 0-d tensors. *)
Definition unbind (a : Tensor) : M (list Tensor) := fun s =>
  match data s a with
  | Some x => Ok (map (fun v => result s UnbindBackward0 [a] [v]) x) s
  | None => Raise RuntimeError
  end.

(** [a.expand(b.shape)]: [a] with the shape of [b]; here it is only applied
    to a tensor that owns its values. *)
Definition expand (a b : Tensor) : M Tensor := fun s =>
  match data s a, data s b with
  | Some x, Some y =>
      if decide (length x = length y)
      then Ok (result s ExpandBackward0 [a] x) s
      else match x with
           | [v] => Ok (result s ExpandBackward0 [a] (replicate (length y) v)) s
           | _ => Raise RuntimeError
           end
  | _, _ => Raise RuntimeError
  end.

(** The next [n] draws of the generator. *)
Definition draw (n : nat) : M (list R) := fun s =>
  Ok (map (entropy s) (seq (generator s) n)) (advance n s).

(** [torch.randn(n)] *)
Definition randn (n : nat) : M Tensor :=
  z <- draw n ;; ret (tensor z).

(** [torch.normal(mean, std)]: one draw per element, scaled and shifted;
    a negative standard deviation is refused. *)
Definition normal (mean std : Tensor) : M Tensor := fun s =>
  match data s mean, data s std with
  | Some m, Some d =>
      match broadcast pair m d with
      | Some md =>
          if decide (Forall (fun x => 0 <= x) d)
          then (z <- draw (length md) ;;
                fun s' =>
                  Ok (result s' NormalBackward [mean; std]
                        (zip_with (fun '(mu, sigma) e => mu + sigma * e) md z))
                     s') s
          else Raise RuntimeError
      | None => Raise RuntimeError
      end
  | _, _ => Raise RuntimeError
  end.

(** [with torch.no_grad(): m] *)
Definition no_grad {A} (m : M A) : M A := fun s =>
  match m (State (params s) (grads s) (entropy s) (generator s) false
             (constructed s)) with
  | Ok a s' =>
      Ok a (State (params s') (grads s') (entropy s') (generator s')
              (grad_enabled s) (constructed s'))
  | Raise e => Raise e
  end.

End torch.

(** ** Distributions and transformations (the framework's interfaces) *)

(** A distribution implements [sample] and [log_prob]. *)
Class Distribution (D : Type) := {
  sample : D -> M Tensor;
  log_prob : D -> Tensor -> M Tensor
}.

(** A transformation implements the forward call, the inverse call and
    [log_abs_det_jacobian]. *)
Class Transform (T : Type) := {
  call : T -> Tensor -> M Tensor;
  inverse : T -> Tensor -> M Tensor;
  log_abs_det_jacobian : T -> Tensor -> Tensor -> M Tensor
}.

(** [t.inv]: the transformation read backwards. *)
Record Inverse (T : Type) := inv { inverse_of : T }.
Arguments inv {T} _.
Arguments inverse_of {T} _.

#[global] Instance Inverse_Transform {T} `{Transform T} : Transform (Inverse T) := {
  call t y := inverse (inverse_of t) y;
  inverse t x := call (inverse_of t) x;
  log_abs_det_jacobian t y x :=
    l <- log_abs_det_jacobian (inverse_of t) x y ;; torch.neg l
}.

(** Modelled from the spec: [torch.distributions.Normal] is not among the
    sources.  A distribution holds its location and scale and implements
    [sample] and [log_prob]; the methods are written one tensor operation
    per step, the log-density as
    -((value - loc)^2) / (2 scale^2) - log(scale) - log(sqrt(2 pi)). *)
Module Normal.

Record t := {
  loc : Tensor;
  scale : Tensor;
  serial : nat      (* how many distribution objects were built before *)
}.

(** [Normal(loc, scale)]: the arguments must broadcast against each other
    and are kept by reference.  They are not validated: [import zuko] turns
    the validation of the arguments of distributions off, so a scale that
    is not positive is accepted. *)
Definition init (loc scale : Tensor) : M t := fun s =>
  match data s loc, data s scale with
  | Some m, Some d =>
      match broadcast pair m d with
      | Some _ =>
          Ok {| loc := loc; scale := scale; serial := constructed s |}
             (built s)
      | None => Raise RuntimeError
      end
  | _, _ => Raise RuntimeError
  end.

(** Number of elements of the batch shape. *)
Definition batch (self : t) : M nat := fun s =>
  match data s (loc self), data s (scale self) with
  | Some m, Some d =>
      match broadcast pair m d with
      | Some md => Ok (length md) s
      | None => Raise RuntimeError
      end
  | _, _ => Raise RuntimeError
  end.

Definition sample (self : t) : M Tensor :=
  torch.no_grad (torch.normal (loc self) (scale self)).

Definition rsample (self : t) : M Tensor :=
  n <- batch self ;;
  eps <- torch.randn n ;;
  e <- torch.mul eps (scale self) ;;
  torch.add (loc self) e.

Definition log_prob (self : t) (value : Tensor) : M Tensor :=
  var <- torch.pow (scale self) 2 ;;
  log_scale <- torch.log (scale self) ;;
  d <- torch.sub value (loc self) ;;
  d2 <- torch.pow d 2 ;;
  n <- torch.neg d2 ;;
  v2 <- torch.mul (scalar 2) var ;;
  q <- torch.div n v2 ;;
  r <- torch.sub q log_scale ;;
  torch.sub r (scalar (ln (sqrt (2 * PI)))).

End Normal.

#[global] Instance Normal_Distribution : Distribution Normal.t := {
  sample := Normal.sample;
  log_prob := Normal.log_prob
}.

(** Modelled from the spec: [torch.distributions.AffineTransform] is not
    among the sources.  The forward call is y = loc + scale * x, the
    inverse call x = (y - loc) / scale, and [log_abs_det_jacobian] is
    log |scale| with the shape of x.  The constructor accepts every
    scale. *)
Module AffineTransform.

Record t := { loc : Tensor; scale : Tensor }.

Definition init (loc scale : Tensor) : t := {| loc := loc; scale := scale |}.

Definition call (self : t) (x : Tensor) : M Tensor :=
  e <- torch.mul (scale self) x ;;
  torch.add (loc self) e.

Definition inverse (self : t) (y : Tensor) : M Tensor :=
  d <- torch.sub y (loc self) ;;
  torch.div d (scale self).

Definition log_abs_det_jacobian (self : t) (x y : Tensor) : M Tensor :=
  a <- torch.abs (scale self) ;;
  l <- torch.log a ;;
  torch.expand l x.

End AffineTransform.

#[global] Instance AffineTransform_Transform : Transform AffineTransform.t := {
  call := AffineTransform.call;
  inverse := AffineTransform.inverse;
  log_abs_det_jacobian := AffineTransform.log_abs_det_jacobian
}.

(** Modelled from the spec: [zuko.distributions.NormalizingFlow] is not among
    the sources; the tutorial states what it computes.  The likelihood
    follows the change of variables formula, log p(X = x) = log p(Z = f(x))
    + log |det df(x)/dx|, and sampling draws z from the base and applies
    the inverse transformation; like every [sample], it runs with gradients
    disabled. *)
Module NormalizingFlow.

Record t (T D : Type) := { transform : T; base : D }.
Arguments transform {T D} _.
Arguments base {T D} _.

Definition init {T D} (transform : T) (base : D) : M (t T D) := fun s =>
  Ok {| transform := transform; base := base |} (built s).

Definition sample {T D} `{Transform T} `{Distribution D} (self : t T D)
  : M Tensor :=
  torch.no_grad
    (z <- sample (base self) ;;
     call (inv (transform self)) z).

Definition log_prob {T D} `{Transform T} `{Distribution D} (self : t T D)
  (x : Tensor) : M Tensor :=
  z <- call (transform self) x ;;
  ladj <- log_abs_det_jacobian (transform self) x z ;;
  lp <- log_prob (base self) z ;;
  torch.add lp ladj.

End NormalizingFlow.

#[global] Instance NormalizingFlow_Distribution {T D} `{Transform T}
  `{Distribution D} : Distribution (NormalizingFlow.t T D) := {
  sample := NormalizingFlow.sample;
  log_prob := NormalizingFlow.log_prob
}.

(** Modelled from the spec: [zuko.flows.LazyDistribution] is not among the
    sources.  A lazy distribution is a module that holds parameters and the
    recipe to build a distribution; its forward pass, given a context,
    returns the distribution. *)
Class LazyDistribution (L D : Type) `{Distribution D} := {
  forward : L -> Tensor -> M D;
  parameters : L -> list addr
}.

(** Modelled from the spec: [zuko.flows.LazyTransform] is not among the
    sources.  A lazy transformation is a module that holds parameters and
    the recipe to build a transformation; its forward pass, given a
    context, returns the transformation. *)
Module LazyTransform.

Class t (L T : Type) `{Transform T} := {
  forward : L -> Tensor -> M T;
  parameters : L -> list addr
}.

End LazyTransform.

(** ** Neural network layers *)

(** Modelled from the spec: [torch.nn] is not among the sources.  A linear
    layer computes y = x W^T + b from its two parameters, [ReLU] is
    max(0, x) on each element, and a sequential container applies its
    layers in order. *)
Module nn.

(** [torch.nn.Parameter(v)]: a new cell of the parameter store. *)
Definition Parameter_ (v : list R) : M addr := fun s =>
  Ok (length (params s))
     (State (params s ++ [v]) (grads s ++ [None]) (entropy s) (generator s)
        (grad_enabled s) (constructed s)).

Record Linear := {
  in_features : nat;
  out_features : nat;
  weight : addr;      (* out_features rows of in_features entries *)
  bias : addr
}.

(** [Linear(in_features, out_features)]: the initial values are what the
    generator yields. *)
Definition Linear_init (i o : nat) : M Linear :=
  w <- torch.draw (o * i) ;;
  pw <- Parameter_ w ;;
  b <- torch.draw o ;;
  pb <- Parameter_ b ;;
  ret {| in_features := i; out_features := o; weight := pw; bias := pb |}.

Definition dot (u v : list R) : R := foldr Rplus 0 (zip_with Rmult u v).

Fixpoint matvec (rows cols : nat) (w x : list R) : list R :=
  match rows with
  | O => []
  | S r => dot (take cols w) x :: matvec r cols (drop cols w) x
  end.

(** y = x W^T + b, for a vector x of [in_features] entries. *)
Definition Linear_forward (self : Linear) (x : Tensor) : M Tensor := fun s =>
  match data s x, params s !! weight self, params s !! bias self with
  | Some v, Some w, Some b =>
      if decide (length v = in_features self
                 /\ length w = (out_features self * in_features self)%nat
                 /\ length b = out_features self)
      then Ok (result s LinearBackward
                 [x; parameter (weight self); parameter (bias self)]
                 (zip_with Rplus
                    (matvec (out_features self) (in_features self) w v) b)) s
      else Raise RuntimeError
  | _, _, _ => Raise RuntimeError
  end.

Inductive layer :=
| Linear_ (l : Linear)
| ReLU.

Definition layer_forward (l : layer) (x : Tensor) : M Tensor :=
  match l with
  | Linear_ l => Linear_forward l x
  | ReLU => torch.relu x
  end.

Definition layer_parameters (l : layer) : list addr :=
  match l with
  | Linear_ l => [weight l; bias l]
  | ReLU => []
  end.

Definition Sequential := list layer.

Fixpoint Sequential_forward (self : Sequential) (x : Tensor) : M Tensor :=
  match self with
  | [] => ret x
  | l :: rest => y <- layer_forward l x ;; Sequential_forward rest y
  end.

Definition Sequential_parameters (self : Sequential) : list addr :=
  concat (map layer_parameters self).

End nn.

(** ** The lazy Gaussian model of the tutorial *)

Module GaussianModel.

Record t := { hyper : nn.Sequential }.

Definition init (context : nat) : M t :=
  l0 <- nn.Linear_init context 64 ;;
  l2 <- nn.Linear_init 64 2 ;;           (* mu, log sigma *)
  ret {| hyper := [nn.Linear_ l0; nn.ReLU; nn.Linear_ l2] |}.

Definition forward (self : t) (c : Tensor) : M Normal.t :=
  out <- nn.Sequential_forward (hyper self) c ;;
  parts <- torch.unbind out ;;
  match parts with
  | [mu; log_sigma] =>
      sigma <- torch.exp log_sigma ;;
      Normal.init mu sigma
  | _ => raise ValueError
  end.

Definition parameters (self : t) : list addr :=
  nn.Sequential_parameters (hyper self).

End GaussianModel.

#[global] Instance GaussianModel_LazyDistribution
  : LazyDistribution GaussianModel.t Normal.t := {
  forward := GaussianModel.forward;
  parameters := GaussianModel.parameters
}.

(** ** Unconditional modules *)

(** Modelled from the spec: [zuko.flows.Unconditional] is not among the
    sources.  The tutorial wraps a constructor and its tensor arguments in
    such a module and notes that it ignores the context: the module
    registers the tensors, as buffers (not trainable) or as parameters,
    and its forward pass calls the constructor on them. *)
Module Unconditional.

Record t (O : Type) := {
  meta : list Tensor -> M O;      (* the constructor *)
  tensors : list Tensor;          (* its registered arguments *)
  trainable : list addr
}.
Arguments meta {O} _.
Arguments tensors {O} _.
Arguments trainable {O} _.

Fixpoint register (args : list (list R)) : M (list addr) :=
  match args with
  | [] => ret []
  | v :: rest =>
      p <- nn.Parameter_ v ;;
      ps <- register rest ;;
      ret (p :: ps)
  end.

(** [Unconditional(meta, *args, buffer=buffer)] *)
Definition init {O} (meta : list Tensor -> M O) (args : list (list R))
  (buffer : bool) : M (t O) :=
  if buffer
  then ret {| meta := meta; tensors := map tensor args; trainable := [] |}
  else ps <- register args ;;
       ret {| meta := meta; tensors := map parameter ps; trainable := ps |}.

Definition forward {O} (self : t O) (c : Tensor) : M O :=
  meta self (tensors self).

Definition parameters {O} (self : t O) : list addr := trainable self.

End Unconditional.

#[global] Instance Unconditional_LazyTransform {T} `{Transform T}
  : LazyTransform.t (Unconditional.t T) T := {
  LazyTransform.forward := Unconditional.forward;
  LazyTransform.parameters := Unconditional.parameters
}.

(** [AffineTransform] as the constructor of an unconditional module: it
    takes two tensors. *)
Definition AffineTransform_meta (args : list Tensor) : M AffineTransform.t :=
  match args with
  | [loc; scale] => ret (AffineTransform.init loc scale)
  | _ => raise TypeError
  end.

(** ** Gradient descent *)

Section Training.

(** The framework's gradient of the output of a graph with respect to a
    parameter, and the update rule of the optimizer with its own state. *)
Variable autograd : node -> addr -> list R.
Variable moments : Type.
Variable adam : moments -> addr -> list R -> list R -> list R * moments.

Definition accumulate (n : node) (g : list (option (list R))) (p : addr)
  : list (option (list R)) :=
  match g !! p with
  | Some (Some old) => <[p := Some (zip_with Rplus old (autograd n p))]> g
  | Some None => <[p := Some (autograd n p)]> g
  | None => g
  end.

(** [loss.backward()]: the loss must be a single element attached to a
    graph; the gradients are accumulated in the parameters it reaches. *)
Definition backward (loss : Tensor) : M unit := fun s =>
  match edge loss, data s loss with
  | Some n, Some [_] =>
      Ok tt (State (params s)
               (foldl (accumulate n) (grads s) (remove_dups (leaves n)))
               (entropy s) (generator s) (grad_enabled s) (constructed s))
  | _, _ => Raise RuntimeError
  end.

(** [torch.optim.Adam(parameters)] *)
Record Adam := { param_groups : list addr; moments_of : moments }.

(** The update of one parameter, in place: the new values must have the
    shape of the parameter. *)
Definition update (p : addr) (st : moments) : M moments := fun s =>
  match params s !! p, grads s !! p with
  | Some v, Some (Some g) =>
      let '(v', st') := adam st p v g in
      if decide (length v' = length v)
      then Ok st' (State (<[p := v']> (params s)) (grads s) (entropy s)
                     (generator s) (grad_enabled s) (constructed s))
      else Raise RuntimeError
  | Some _, Some None => Ok st s
  | _, _ => Raise RuntimeError
  end.

Fixpoint updates (ps : list addr) (st : moments) : M moments :=
  match ps with
  | [] => ret st
  | p :: rest => st' <- update p st ;; updates rest st'
  end.

(** [optimizer.step()] *)
Definition step (self : Adam) : M Adam :=
  st <- updates (param_groups self) (moments_of self) ;;
  ret {| param_groups := param_groups self; moments_of := st |}.

(** [optimizer.zero_grad()] *)
Definition zero_grad (self : Adam) : M unit := fun s =>
  Ok tt (State (params s)
           (foldl (fun g p => <[p := None]> g) (grads s) (param_groups self))
           (entropy s) (generator s) (grad_enabled s) (constructed s)).

(** The body of the training loop of the tutorial, and the loop. *)
Definition iteration (model : GaussianModel.t) (optimizer : Adam) : M Adam :=
  c <- torch.randn 8 ;;
  m <- torch.sum c ;;
  a <- torch.abs c ;;
  sd <- torch.prod a ;;
  x <- torch.normal m sd ;;
  d <- forward model c ;;
  lp <- log_prob d x ;;
  loss <- torch.neg lp ;;           (* -log p(x | c) *)
  backward loss ;;;
  optimizer' <- step optimizer ;;
  zero_grad optimizer' ;;;
  ret optimizer'.

Fixpoint loop (n : nat) (model : GaussianModel.t) (optimizer : Adam)
  : M Adam :=
  match n with
  | O => ret optimizer
  | S k => optimizer' <- iteration model optimizer ;; loop k model optimizer'
  end.

Definition training (model : GaussianModel.t) (st : moments) : M Adam :=
  loop 8 model
    {| param_groups := parameters model; moments_of := st |}.

End Training.

Arguments param_groups {moments} _.
Arguments moments_of {moments} _.
Arguments update {moments} adam p st _.
Arguments updates {moments} adam ps st _.
Arguments step {moments} adam self _.
Arguments zero_grad {moments} self _.
Arguments iteration autograd {moments} adam model optimizer _.
Arguments loop autograd {moments} adam n model optimizer _.
Arguments training autograd {moments} adam model st _.

(** ** Values computed by the hyper-network, read off the store *)

Definition Linear_map (s : state) (l : nn.Linear) (v : list R) : list R :=
  match params s !! nn.weight l, params s !! nn.bias l with
  | Some w, Some b =>
      zip_with Rplus (nn.matvec (nn.out_features l) (nn.in_features l) w v) b
  | _, _ => []
  end.

Definition layer_map (s : state) (l : nn.layer) (v : list R) : list R :=
  match l with
  | nn.Linear_ l => Linear_map s l v
  | nn.ReLU => map (Rmax 0) v
  end.

Definition hyper_map (s : state) (m : GaussianModel.t) (v : list R) : list R :=
  foldl (fun x l => layer_map s l x) v (GaussianModel.hyper m).

(** ** Well-formed models *)

(** The parameters of a linear layer are in the store with their shapes. *)
Definition Linear_ok (s : state) (l : nn.Linear) : Prop :=
  match params s !! nn.weight l, params s !! nn.bias l with
  | Some w, Some b =>
      length w = (nn.out_features l * nn.in_features l)%nat
      /\ length b = nn.out_features l
  | _, _ => False
  end.

(** The module is a [GaussianModel(context)] whose parameters are in the
    store. *)
Definition well_formed (context : nat) (s : state) (m : GaussianModel.t)
  : Prop :=
  match GaussianModel.hyper m with
  | [nn.Linear_ l0; nn.ReLU; nn.Linear_ l2] =>
      nn.in_features l0 = context /\ nn.out_features l0 = 64%nat
      /\ nn.in_features l2 = 64%nat /\ nn.out_features l2 = 2%nat
      /\ Linear_ok s l0 /\ Linear_ok s l2
  | _ => False
  end.

#[global] Instance Linear_ok_dec s l : Decision (Linear_ok s l).
Proof. unfold Linear_ok. repeat case_match; apply _. Defined.

#[global] Instance well_formed_dec context s m
  : Decision (well_formed context s m).
Proof. unfold well_formed. repeat case_match; apply _. Defined.

(** An in-place write of a parameter. *)
Definition store (p : addr) (v : list R) (s : state) : state :=
  State (<[p := v]> (params s)) (grads s) (entropy s) (generator s)
    (grad_enabled s) (constructed s).

(** The tensors the forward pass creates, for a context [c] of values [v]. *)
Definition hidden_t s (l0 : nn.Linear) c v : Tensor :=
  result s LinearBackward
    [c; parameter (nn.weight l0); parameter (nn.bias l0)] (Linear_map s l0 v).

Definition act_t s l0 c v : Tensor :=
  result s ReluBackward0 [hidden_t s l0 c v] (map (Rmax 0) (Linear_map s l0 v)).

Definition out_t s l0 (l2 : nn.Linear) c v : Tensor :=
  result s LinearBackward
    [act_t s l0 c v; parameter (nn.weight l2); parameter (nn.bias l2)]
    (Linear_map s l2 (map (Rmax 0) (Linear_map s l0 v))).

Definition mu_t s l0 l2 c v (mu : R) : Tensor :=
  result s UnbindBackward0 [out_t s l0 l2 c v] [mu].

Definition sigma_t s l0 l2 c v (log_sigma : R) : Tensor :=
  result s ExpBackward0
    [result s UnbindBackward0 [out_t s l0 l2 c v] [log_sigma]]
    [exp log_sigma].


(** The logarithm of the Gaussian density of location [mu] and scale
    [sigma], as the specification writes it. *)
Definition log_normal (mu sigma x : R) : R :=
  - ((x - mu) ^ 2) / (2 * sigma ^ 2) - ln (sigma * sqrt (2 * PI)).

(** The graph of [t] reaches the parameter [p]: the value of [t] is
    differentiated with respect to [p] by a backward pass. *)
Definition tracks (t : Tensor) (p : addr) : Prop :=
  exists n, edge t = Some n /\ In p (leaves n).

(** ** The module of the tutorial

    [model = GaussianModel(8)], built in an empty store whose generator
    yields zeros. *)

Definition fresh : state := State [] [] (fun _ => 0) 0%nat true 0%nat.

Definition model8 : GaussianModel.t :=
  {| GaussianModel.hyper :=
       [nn.Linear_ {| nn.in_features := 8; nn.out_features := 64;
                      nn.weight := 0%nat; nn.bias := 1%nat |};
        nn.ReLU;
        nn.Linear_ {| nn.in_features := 64; nn.out_features := 2;
                      nn.weight := 2%nat; nn.bias := 3%nat |}] |}.

Definition state8 : state :=
  State [repeat 0 512; repeat 0 64; repeat 0 128; repeat 0 2]
    [None; None; None; None] (fun _ => 0) 706%nat true 0%nat.

(** ** The transformation and the distributions of the tutorial *)

(** The map of [AffineTransform(loc, scale)] on one element. *)
Definition affine (l k : R) (u : R) : R := l + k * u.

(** [torch.distributions.Normal(torch.tensor(0.0), torch.tensor(1.0))], the
    object the constructor returns in the state [fresh]. *)
Definition standard_normal : Normal.t :=
  {| Normal.loc := tensor [0]; Normal.scale := tensor [1]; Normal.serial := 0%nat |}.

(** [torch.distributions.AffineTransform(torch.tensor(2.0), torch.tensor(3.0))] *)
Definition transform23 : AffineTransform.t :=
  AffineTransform.init (tensor [2]) (tensor [3]).

(** [zuko.distributions.NormalizingFlow(transform, distribution)] *)
Definition flow23 : NormalizingFlow.t AffineTransform.t Normal.t :=
  {| NormalizingFlow.transform := transform23;
     NormalizingFlow.base := standard_normal |}.

(** An affine transformation of scale zero. *)
Definition transform20 : AffineTransform.t :=
  AffineTransform.init (tensor [2]) (tensor [0]).

(** Two states whose parameters have the same shapes. *)
Definition same_shapes (s s' : state) : Prop :=
  map length (params s) = map length (params s').

(** The step from [s] to [s'] writes no parameter outside [ps] and changes
    the shape of none. *)
Definition writes_only (ps : list addr) (s s' : state) : Prop :=
  same_shapes s s'
  /\ forall q, ~ In q ps -> params s' !! q = params s !! q.

(** ** Shapes *)

(** [v] has one element or [n] elements: it broadcasts to [n] elements. *)
Definition fits (n : nat) (v : list R) : Prop :=
  length v = 1%nat \/ length v = n.

(** [v] broadcast to [n] elements. *)
Definition spread (n : nat) (v : list R) : list R :=
  match v with
  | [a] => replicate n a
  | _ => v
  end.

Definition zip3 {A B C D} (f : A -> B -> C -> D)
  (a : list A) (b : list B) (c : list C) : list D :=
  zip_with (fun p z => f p.1 p.2 z) (zip a b) c.

(** The values of the maps [Fs] at the elements [xs], one map per
    element. *)
Definition ap (Fs : list (R -> R)) (xs : list R) : list R :=
  zip_with (fun F a => F a) Fs xs.

(** ** What transformations and distributions compute *)

(** The transformation object [t], with the parameter values [P], is a
    bijection that acts element by element: on the element of index i its
    forward call computes the map F_i, whose derivative J_i vanishes
    nowhere, its inverse call computes the inverse map G_i, and
    [log_abs_det_jacobian] computes log |J_i|. *)
Record bijective {T} `{Transform T} (t : T) (P : list (list R))
  (Fs Js Gs : list (R -> R)) : Prop := {
  bijective_shape : length Js = length Fs /\ length Gs = length Fs;
  bijective_derivative : forall i F J G,
    Fs !! i = Some F -> Js !! i = Some J -> Gs !! i = Some G ->
    (forall a, derivable_pt_lim F a (J a) /\ J a <> 0)
    /\ (forall b, derivable_pt_lim G b (/ J (G b)));
  bijective_inverse : forall i F G,
    Fs !! i = Some F -> Gs !! i = Some G ->
    forall a, G (F a) = a /\ F (G a) = a;
  bijective_call : forall s x xs,
    params s = P -> data s x = Some xs -> length xs = length Fs ->
    exists y, call t x s = Ok y s /\ data s y = Some (ap Fs xs);
  bijective_inv : forall s y ys,
    params s = P -> data s y = Some ys -> length ys = length Fs ->
    exists x, inverse t y s = Ok x s /\ data s x = Some (ap Gs ys);
  bijective_ladj : forall s x xs y,
    params s = P -> data s x = Some xs -> length xs = length Fs ->
    data s y = Some (ap Fs xs) ->
    exists l,
      log_abs_det_jacobian t x y s = Ok l s
      /\ data s l = Some (ap (map (fun J a => ln (Rabs (J a))) Js) xs)
}.

(** [log_prob] of the distribution object [d] computes the log-density
    p_i at the element of index i. *)
Definition log_density {D} `{Distribution D} (d : D) (P : list (list R))
  (ps : list (R -> R)) : Prop :=
  forall s x xs,
    params s = P -> data s x = Some xs -> length xs = length ps ->
    exists lp, log_prob d x s = Ok lp s /\ data s lp = Some (ap ps xs).

(** [sample] of [d] consumes one draw of the generator per element and
    returns, at index i, the value q_i(e) for the draw e. *)
Definition sampler {D} `{Distribution D} (d : D) (P : list (list R))
  (qs : list (R -> R)) : Prop :=
  forall s, params s = P ->
    exists z,
      sample d s = Ok z (advance (length qs) s)
      /\ data (advance (length qs) s) z
         = Some (ap qs (map (entropy s) (seq (generator s) (length qs)))).

(** The value q(e) of a standard normal draw e has the log-density p:
    q is differentiable with a derivative that vanishes nowhere and
    p(q(e)) + log |q'(e)| is the standard normal log-density at e. *)
Definition follows (p q : R -> R) : Prop :=
  exists q' : R -> R,
    forall e, derivable_pt_lim q e (q' e) /\ q' e <> 0
              /\ p (q e) + ln (Rabs (q' e)) = log_normal 0 1 e.

(** The change of variables formula: the log-densities of a flow, from
    the maps [Fs] of its transformation, their derivatives [Js] and the
    log-densities [ps] of its base. *)
Definition change_of_variables (Fs Js ps : list (R -> R)) : list (R -> R) :=
  zip3 (fun (F J p : R -> R) x => p (F x) + ln (Rabs (J x))) Fs Js ps.

(** The values of a flow's sample: the inverse maps [Gs] of the
    transformation after the values [qs] of the base's sample. *)
Definition inverse_images (Gs qs : list (R -> R)) : list (R -> R) :=
  zip_with (fun (G q : R -> R) e => G (q e)) Gs qs.

(** The inverse map of [AffineTransform(loc, scale)] on one element. *)
Definition affine_inv (l k : R) (v : R) : R := (v - l) / k.

(** ** Single precision

    The elements of the tutorial's tensors are binary32 numbers.  This
    module gives the binary32 arithmetic (IEEE 754, rounding to nearest
    even) of the two calls of an affine transformation on one element,
    y = loc + scale * x and x = (y - loc) / scale. *)
Module float32.

Definition t := spec_float.

Definition add : t -> t -> t := SFadd 24 128.
Definition sub : t -> t -> t := SFsub 24 128.
Definition mul : t -> t -> t := SFmul 24 128.
Definition div : t -> t -> t := SFdiv 24 128.

(** The number m * 2^e. *)
Definition finite (m : positive) (e : Z) : t := S754_finite false m e.

Definition zero : t := S754_zero false.
Definition one : t := finite 8388608 (-23).
Definition two : t := finite 8388608 (-22).
Definition three : t := finite 12582912 (-22).
Definition five : t := finite 10485760 (-21).
(** [torch.tensor(0.1)], the binary32 number nearest to one tenth. *)
Definition tenth : t := finite 13421773 (-27).

Definition call (loc scale x : t) : t := add loc (mul scale x).
Definition inverse (loc scale y : t) : t := div (sub y loc) scale.

End float32.

(** ** The first transformation of the custom flow of the tutorial *)

(** [Unconditional(AffineTransform, torch.tensor(1 / 512),
    torch.tensor(1 / 256), buffer=True)] *)
Definition preprocessing : Unconditional.t AffineTransform.t :=
  {| Unconditional.meta := AffineTransform_meta;
     Unconditional.tensors := [tensor [1 / 512]; tensor [1 / 256]];
     Unconditional.trainable := [] |}.

(** ** A context that makes the scale underflow *)

(** Parameter values of [GaussianModel(8)] with which the context of ones
    gives log sigma = -512: each of the 64 units of the first layer sums
    the context, and the second layer returns 0 and minus the sum of the
    units. *)
Definition state_underflow : state :=
  State [repeat 1 512; repeat 0 64; repeat 0 64 ++ repeat (-1) 64; [0; 0]]
    [None; None; None; None] (fun _ => 0) 706%nat true 0%nat.
(** * Properties *)

(** ** Running tensor operations *)

Lemma data_result s s' f inputs v : data s (result s' f inputs v) = Some v.
Proof. reflexivity. Qed.

Lemma broadcast_scalar_r {A} (g : R -> R -> A) x b :
  broadcast g x [b] = Some (map (fun a => g a b) x).
Proof.
  unfold broadcast. case_decide as Hlen.
  - destruct x as [|a [|a' x]]; simpl in Hlen; try discriminate. reflexivity.
  - destruct x as [|a [|a' x]]; reflexivity.
Qed.

Lemma broadcast_scalar_l {A} (g : R -> R -> A) a y :
  broadcast g [a] y = Some (map (g a) y).
Proof.
  unfold broadcast. case_decide as Hlen.
  - destruct y as [|b [|b' y]]; simpl in Hlen; try discriminate. reflexivity.
  - reflexivity.
Qed.

Lemma broadcast_same {A} (g : R -> R -> A) x y :
  length x = length y -> broadcast g x y = Some (zip_with g x y).
Proof. intros Hlen. unfold broadcast. rewrite decide_True; auto. Qed.

Lemma unary_run f g a s x :
  data s a = Some x ->
  torch.unary f g a s = Ok (result s f [a] (map g x)) s.
Proof. intros Ha. unfold torch.unary. rewrite Ha. reflexivity. Qed.

Lemma binary_run f g a b s x y v :
  data s a = Some x -> data s b = Some y -> broadcast g x y = Some v ->
  torch.binary f g a b s = Ok (result s f [a; b] v) s.
Proof. intros Ha Hb Hv. unfold torch.binary. rewrite Ha, Hb, Hv. reflexivity. Qed.

Lemma length_matvec rows cols w x : length (nn.matvec rows cols w x) = rows.
Proof.
  revert w. induction rows as [|r IH]; intros w; simpl; [reflexivity|].
  rewrite IH. reflexivity.
Qed.

Lemma length_Linear_map s l v :
  Linear_ok s l -> length (Linear_map s l v) = nn.out_features l.
Proof.
  unfold Linear_ok, Linear_map.
  destruct (params s !! nn.weight l) as [w|]; [|tauto].
  destruct (params s !! nn.bias l) as [b|]; [|tauto].
  intros [_ Hb]. rewrite length_zip_with, length_matvec. lia.
Qed.

Lemma Linear_run s l x v :
  Linear_ok s l -> data s x = Some v -> length v = nn.in_features l ->
  nn.Linear_forward l x s =
    Ok (result s LinearBackward
          [x; parameter (nn.weight l); parameter (nn.bias l)]
          (Linear_map s l v)) s.
Proof.
  unfold Linear_ok, Linear_map, nn.Linear_forward. intros Hok Hx Hv.
  rewrite Hx.
  destruct (params s !! nn.weight l) as [w|]; [|tauto].
  destruct (params s !! nn.bias l) as [b|]; [|tauto].
  rewrite decide_True by tauto. reflexivity.
Qed.

Lemma list_of_length_2 {A} (l : list A) :
  length l = 2%nat -> exists a b, l = [a; b].
Proof.
  destruct l as [|a [|b [|c l]]]; simpl; intros H; try discriminate.
  eauto.
Qed.

(** ** The forward pass of the Gaussian model, step by step *)

Lemma forward_run context s m c v :
  well_formed context s m -> data s c = Some v -> length v = context ->
  exists l0 l2 mu log_sigma,
    GaussianModel.hyper m = [nn.Linear_ l0; nn.ReLU; nn.Linear_ l2]
    /\ hyper_map s m v = [mu; log_sigma]
    /\ GaussianModel.forward m c s =
         Ok {| Normal.loc := mu_t s l0 l2 c v mu;
               Normal.scale := sigma_t s l0 l2 c v log_sigma;
               Normal.serial := constructed s |} (built s).
Proof.
  unfold well_formed, hyper_map. intros Hwf Hc Hv.
  destruct m as [layers]; simpl in *.
  destruct layers as [|[l0|] [|[|] [|[l2|] [|? ?]]]]; try tauto.
  destruct Hwf as (Hi0 & Ho0 & Hi2 & Ho2 & Hok0 & Hok2).
  assert (Hlen : length (Linear_map s l2 (map (Rmax 0) (Linear_map s l0 v)))
                 = 2%nat).
  { rewrite length_Linear_map by assumption. assumption. }
  destruct (list_of_length_2 _ Hlen) as (mu & log_sigma & Hout).
  exists l0, l2, mu, log_sigma. split; [reflexivity|]. split; [exact Hout|].
  unfold GaussianModel.forward, bind; simpl. unfold bind.
  rewrite (Linear_run s l0 c v) by (auto; lia).
  unfold torch.relu. erewrite unary_run by apply data_result.
  erewrite Linear_run; [| assumption | apply data_result |].
  2:{ rewrite length_map, length_Linear_map by assumption. lia. }
  unfold torch.unbind, ret. rewrite data_result, Hout. simpl.
  unfold Normal.init. rewrite !data_result.
  rewrite broadcast_same by reflexivity.
  unfold mu_t, sigma_t, out_t, act_t, hidden_t. rewrite Hout. reflexivity.
Qed.

(** A context of another size is refused by the first linear layer. *)
Lemma forward_wrong_size context s m c v :
  well_formed context s m -> data s c = Some v -> length v <> context ->
  GaussianModel.forward m c s = Raise RuntimeError.
Proof.
  unfold well_formed. intros Hwf Hc Hv.
  destruct m as [layers]; simpl in *.
  destruct layers as [|[l0|] [|[|] [|[l2|] [|? ?]]]]; try tauto.
  destruct Hwf as (Hi0 & _ & _ & _ & Hok0 & _).
  unfold GaussianModel.forward, bind; simpl. unfold bind, nn.Linear_forward.
  rewrite Hc. unfold Linear_ok in Hok0.
  destruct (params s !! nn.weight l0); [|tauto].
  destruct (params s !! nn.bias l0); [|tauto].
  rewrite decide_False; [reflexivity|].
  intros [Hlen _]. congruence.
Qed.

(** ** Sequencing *)

Lemma bind_run {A B} (m : M A) (k : A -> M B) s a s' :
  m s = Ok a s' -> bind m k s = k a s'.
Proof. intros Hm. unfold bind. rewrite Hm. reflexivity. Qed.

Lemma bind_raise {A B} (m : M A) (k : A -> M B) s e :
  m s = Raise e -> bind m k s = Raise e.
Proof. intros Hm. unfold bind. rewrite Hm. reflexivity. Qed.

Lemma data_built s t : data (built s) t = data s t.
Proof. reflexivity. Qed.

Ltac solve_data :=
  first [ eassumption | apply data_result | reflexivity
        | rewrite data_built; eassumption ].

Ltac solve_broadcast :=
  first [ apply broadcast_scalar_r | apply broadcast_scalar_l
        | apply broadcast_same; reflexivity ].

(** One operation of a sequence. *)
Ltac run :=
  first
    [ erewrite bind_run; [| eapply unary_run; solve_data ]
    | erewrite bind_run;
      [| eapply binary_run; [solve_data | solve_data | solve_broadcast] ]
    | erewrite unary_run; [| solve_data ]
    | erewrite binary_run; [| solve_data | solve_data | solve_broadcast ] ].

(** ** Autograd edges *)

Lemma grad_fn_result_no_grad s f inputs v :
  grad_enabled s = false -> grad_fn (result s f inputs v) = None.
Proof.
  intros Hs. unfold result; simpl. rewrite Hs.
  destruct (omap edge inputs); reflexivity.
Qed.

Lemma grad_fn_result_leaf s f inputs v :
  Forall (fun a => edge a = None) inputs ->
  grad_fn (result s f inputs v) = None.
Proof.
  intros Hin. unfold result; simpl.
  replace (omap edge inputs) with (@nil node); [reflexivity|].
  induction Hin as [|a l Ha _ IH]; simpl; [reflexivity|].
  rewrite Ha. exact IH.
Qed.

Lemma grad_fn_result s f inputs v a :
  grad_enabled s = true -> In a inputs -> is_Some (edge a) ->
  grad_fn (result s f inputs v)
  = Some (Backward f (omap (data s) inputs) (omap edge inputs)).
Proof.
  intros Hs Ha [n Hn]. unfold result; simpl. rewrite Hs.
  assert (Hin : n ∈ omap edge inputs).
  { apply list_elem_of_omap. exists a. split; [|exact Hn].
    apply list_elem_of_In. exact Ha. }
  destruct (omap edge inputs) as [|n0 l].
  - inversion Hin.
  - reflexivity.
Qed.

Lemma edge_result s f inputs v :
  edge (result s f inputs v) = grad_fn (result s f inputs v).
Proof. unfold edge. destruct (grad_fn (result s f inputs v)); reflexivity. Qed.

Lemma tracks_result s f inputs v a p :
  grad_enabled s = true -> In a inputs -> tracks a p ->
  tracks (result s f inputs v) p.
Proof.
  intros Hs Ha (n & Hn & Hp). unfold tracks. rewrite edge_result.
  assert (Hin : In n (omap edge inputs)).
  { apply list_elem_of_In, list_elem_of_omap. exists a.
    split; [apply list_elem_of_In; exact Ha | exact Hn]. }
  unfold result; simpl. rewrite Hs.
  destruct (omap edge inputs) as [|n0 l] eqn:Hnext; [destruct Hin|].
  eexists. split; [reflexivity|].
  change (In p (concat (map leaves (n0 :: l)))).
  apply in_concat. exists (leaves n). split; [|exact Hp].
  apply in_map. exact Hin.
Qed.

Lemma tracks_parameter p : tracks (parameter p) p.
Proof. exists (AccumulateGrad p). split; [reflexivity | left; reflexivity]. Qed.

(** ** Running the methods of [Normal] *)

Lemma Normal_log_prob_run s d x mu sigma xs :
  data s (Normal.loc d) = Some [mu] ->
  data s (Normal.scale d) = Some [sigma] ->
  data s x = Some xs ->
  exists q,
    Normal.log_prob d x s =
      Ok (result s SubBackward0
            [result s SubBackward0
               [q; result s LogBackward0 [Normal.scale d] [ln sigma]]
               (map (fun a => - (a - mu) ^ 2 / (2 * sigma ^ 2) - ln sigma) xs);
             scalar (ln (sqrt (2 * PI)))]
            (map (fun a => - (a - mu) ^ 2 / (2 * sigma ^ 2) - ln sigma
                           - ln (sqrt (2 * PI))) xs)) s.
Proof.
  intros Hloc Hscale Hx. eexists.
  unfold Normal.log_prob, torch.pow, torch.log, torch.sub, torch.neg,
    torch.mul, torch.div.
  do 9 run. rewrite !map_map. reflexivity.
Qed.

Lemma data_advance n s t : data (advance n s) t = data s t.
Proof. reflexivity. Qed.

(** A computation under [no_grad] runs with gradients disabled; the mode
    it was entered with is restored afterwards. *)
Lemma no_grad_run {A} (m : M A) s a s' :
  m (State (params s) (grads s) (entropy s) (generator s) false
       (constructed s)) = Ok a s' ->
  torch.no_grad m s
  = Ok a (State (params s') (grads s') (entropy s') (generator s')
            (grad_enabled s) (constructed s')).
Proof. intros Hm. unfold torch.no_grad. rewrite Hm. reflexivity. Qed.

Lemma Normal_sample_run s d mu sigma :
  data s (Normal.loc d) = Some [mu] ->
  data s (Normal.scale d) = Some [sigma] ->
  0 <= sigma ->
  exists z,
    Normal.sample d s = Ok z (advance 1 s)
    /\ data (advance 1 s) z = Some [mu + sigma * entropy s (generator s)]
    /\ grad_fn z = None
    /\ requires_grad z = false.
Proof.
  intros Hloc Hscale Hsigma.
  unfold Normal.sample, torch.no_grad, torch.normal.
  change (data (State (params s) (grads s) (entropy s) (generator s) false
                  (constructed s))) with (data s).
  rewrite Hloc, Hscale, broadcast_same by reflexivity.
  rewrite decide_True by (constructor; [exact Hsigma | constructor]).
  unfold bind, torch.draw; simpl.
  eexists. split; [reflexivity|]. split; [reflexivity|].
  assert (Hnone : forall f i v,
             grad_fn (result (State (params s) (grads s) (entropy s)
                                (generator s + 1) false (constructed s))
                        f i v) = None).
  { intros. apply grad_fn_result_no_grad. reflexivity. }
  split; [apply Hnone|].
  unfold requires_grad. rewrite Hnone. reflexivity.
Qed.

Lemma Normal_rsample_run s d mu sigma :
  data s (Normal.loc d) = Some [mu] ->
  data s (Normal.scale d) = Some [sigma] ->
  Normal.rsample d s =
    Ok (result (advance 1 s) AddBackward0
          [Normal.loc d;
           result (advance 1 s) MulBackward0
             [tensor [entropy s (generator s)]; Normal.scale d]
             [entropy s (generator s) * sigma]]
          [mu + entropy s (generator s) * sigma])
       (advance 1 s).
Proof.
  intros Hloc Hscale.
  unfold Normal.rsample, Normal.batch, torch.randn, torch.draw.
  unfold bind at 1. rewrite Hloc, Hscale, broadcast_same by reflexivity.
  unfold bind at 1. unfold bind at 1. unfold ret. simpl length. simpl map.
  unfold torch.mul, torch.add.
  erewrite bind_run.
  2:{ eapply binary_run; [reflexivity | rewrite data_advance; eassumption
                         | solve_broadcast]. }
  erewrite binary_run;
    [| rewrite data_advance; eassumption | apply data_result
     | solve_broadcast].
  reflexivity.
Qed.

(** ** Shapes and broadcasting *)

Lemma length_spread n v : fits n v -> length (spread n v) = n.
Proof.
  intros [H|H]; destruct v as [|a [|b v]]; simpl in *; try discriminate;
    try rewrite length_replicate; auto.
Qed.

Lemma spread_id n v : length v = n -> spread n v = v.
Proof. intros <-. destruct v as [|a [|b v]]; reflexivity. Qed.

Lemma spread_map n (f : R -> R) v : spread n (map f v) = map f (spread n v).
Proof.
  destruct v as [|a [|b v]]; simpl; try reflexivity.
  change (replicate n (f a) = f <$> replicate n a).
  rewrite fmap_replicate. reflexivity.
Qed.

Lemma Forall_spread (P : R -> Prop) n v : Forall P v -> Forall P (spread n v).
Proof.
  intros H. destruct v as [|a [|b v]]; simpl; auto.
  apply Forall_replicate. inversion H; auto.
Qed.

Lemma fits_refl v : fits (length v) v.
Proof. right. reflexivity. Qed.

Lemma length_zip_spread {A} (g : R -> R -> A) n x y :
  fits n x -> fits n y -> length (zip_with g (spread n x) (spread n y)) = n.
Proof.
  intros Hx Hy. rewrite length_zip_with, !length_spread by assumption. lia.
Qed.

(** Two vectors that fit [n] elements, one of which has [n] elements,
    broadcast to [n] elements. *)
Lemma broadcast_spread {A} (g : R -> R -> A) x y n :
  fits n x -> fits n y -> length x = n \/ length y = n ->
  broadcast g x y = Some (zip_with g (spread n x) (spread n y)).
Proof.
  intros Hx Hy Hn. unfold broadcast. case_decide as Hlen.
  - assert (length x = n /\ length y = n) as [Hx' Hy'] by (destruct Hn; lia).
    rewrite !spread_id by assumption. reflexivity.
  - destruct Hx as [Hx|Hx], Hy as [Hy|Hy]; try lia.
    + destruct x as [|a [|? ?]]; try discriminate.
      rewrite (spread_id n y) by assumption. simpl.
      f_equal. rewrite zip_with_replicate_l by lia. reflexivity.
    + destruct y as [|b [|? ?]]; try discriminate.
      rewrite (spread_id n x) by assumption. simpl.
      destruct x as [|a [|a' x]].
      * simpl in *. subst. reflexivity.
      * simpl in Hlen. lia.
      * f_equal. rewrite zip_with_replicate_r by lia. reflexivity.
Qed.

Lemma broadcast_shape {A} (g : R -> R -> A) x y v :
  broadcast g x y = Some v ->
  fits (length v) x /\ fits (length v) y
  /\ (length x = length v \/ length y = length v).
Proof.
  unfold broadcast, fits. case_decide as Hlen.
  - intros [= <-]. rewrite length_zip_with. lia.
  - destruct x as [|a [|a' x]], y as [|b [|b' y]]; intros [= <-];
      simpl in *; rewrite ?length_map; lia.
Qed.

Lemma lookup_zip3 {A B C D} (f : A -> B -> C -> D) a b c i :
  zip3 f a b c !! i
  = match a !! i, b !! i, c !! i with
    | Some x, Some y, Some z => Some (f x y z)
    | _, _, _ => None
    end.
Proof.
  unfold zip3. rewrite !lookup_zip_with.
  destruct (a !! i), (b !! i), (c !! i); reflexivity.
Qed.

Lemma length_zip3 {A B C D} (f : A -> B -> C -> D) a b c n :
  length a = n -> length b = n -> length c = n -> length (zip3 f a b c) = n.
Proof. intros. unfold zip3. rewrite !length_zip_with. lia. Qed.

Lemma lookup_ap Fs xs i :
  ap Fs xs !! i
  = match Fs !! i, xs !! i with
    | Some F, Some a => Some (F a)
    | _, _ => None
    end.
Proof.
  unfold ap. rewrite lookup_zip_with.
  destruct (Fs !! i), (xs !! i); reflexivity.
Qed.

Lemma length_ap Fs xs : length xs = length Fs -> length (ap Fs xs) = length Fs.
Proof. intros. unfold ap. rewrite length_zip_with. lia. Qed.

Lemma lookup_map {A B} (f : A -> B) (l : list A) i :
  map f l !! i = f <$> l !! i.
Proof. apply list_lookup_fmap. Qed.

(** Lists of values are compared element by element. *)
Ltac pointwise :=
  apply list_eq; intros ?i;
  repeat first [ rewrite lookup_zip3 | rewrite lookup_ap
               | rewrite lookup_zip_with | rewrite lookup_map ].

Lemma data_params s s' t : params s' = params s -> data s' t = data s t.
Proof. unfold data. intros ->. reflexivity. Qed.

(** ** Construction of the module *)

Lemma lookup_app_plus {A} (l1 l2 : list A) k :
  (l1 ++ l2) !! (length l1 + k)%nat = l2 !! k.
Proof.
  rewrite lookup_app_r by lia. f_equal. lia.
Qed.

Lemma init_run context s :
  exists m s1,
    GaussianModel.init context s = Ok m s1
    /\ well_formed context s1 m
    /\ constructed s1 = constructed s
    /\ (exists tail, params s1 = params s ++ tail)
    /\ GaussianModel.parameters m =
         [length (params s); S (length (params s));
          S (S (length (params s))); S (S (S (length (params s))))].
Proof.
  unfold GaussianModel.init, nn.Linear_init, bind, torch.draw, nn.Parameter_,
    ret, advance.
  cbn [params grads entropy generator grad_enabled constructed].
  eexists. eexists. split; [reflexivity|].
  unfold well_formed, Linear_ok, GaussianModel.parameters,
    nn.Sequential_parameters.
  cbn [GaussianModel.hyper nn.in_features nn.out_features nn.weight nn.bias
       params constructed map nn.layer_parameters concat app].
  rewrite !length_app. cbn [length].
  rewrite <- !app_assoc. cbn [app].
  replace (length (params s)) with (length (params s) + 0)%nat at 1 by lia.
  rewrite <- !Nat.add_assoc. cbn [Nat.add].
  rewrite !lookup_app_plus. cbn [lookup list_lookup].
  rewrite !length_map, !length_seq.
  repeat split; try reflexivity.
  - eexists. reflexivity.
  - repeat f_equal; lia.
Qed.

Example model8_init : GaussianModel.init 8 fresh = Ok model8 state8.
Proof. vm_compute. reflexivity. Qed.

Lemma model8_well_formed : well_formed 8 state8 model8.
Proof. unfold well_formed, Linear_ok; simpl. repeat split; reflexivity. Qed.

(** ** State changes of the forward pass *)

Lemma Sequential_forward_state layers x s y s' :
  nn.Sequential_forward layers x s = Ok y s' -> s' = s.
Proof.
  revert x. induction layers as [|l layers IH]; intros x; simpl.
  - unfold ret. congruence.
  - unfold bind.
    destruct (nn.layer_forward l x s) as [z s1|e] eqn:Hl; [|discriminate].
    assert (s1 = s) as ->.
    { destruct l as [l|]; simpl in Hl.
      - unfold nn.Linear_forward in Hl.
        repeat (case_match; try discriminate). congruence.
      - unfold torch.relu, torch.unary in Hl.
        repeat (case_match; try discriminate). congruence. }
    apply IH.
Qed.

Lemma forward_state m c s d s' :
  GaussianModel.forward m c s = Ok d s' ->
  s' = built s /\ Normal.serial d = constructed s.
Proof.
  unfold GaussianModel.forward, bind.
  destruct (nn.Sequential_forward _ c s) as [out s1|e] eqn:Hseq; [|discriminate].
  apply Sequential_forward_state in Hseq as ->.
  unfold torch.unbind.
  destruct (data s out) as [x|]; [|discriminate].
  destruct (map _ x) as [|mu [|ls [|? ?]]]; try discriminate.
  unfold torch.exp, torch.unary.
  destruct (data s ls); [|discriminate].
  unfold Normal.init.
  repeat (case_match; try discriminate).
  intros [= <- <-]. split; reflexivity.
Qed.

(** ** The Gaussian log-density *)

Lemma log_normal_eq mu sigma a :
  0 < sigma ->
  - (a - mu) ^ 2 / (2 * sigma ^ 2) - ln sigma - ln (sqrt (2 * PI))
  = log_normal mu sigma a.
Proof.
  intros Hsigma. unfold log_normal.
  assert (0 < sqrt (2 * PI)).
  { apply sqrt_lt_R0. pose proof PI_RGT_0. lra. }
  rewrite ln_mult by assumption. lra.
Qed.

Lemma log_normal_at_draw mu sigma e :
  0 < sigma ->
  log_normal mu sigma (mu + sigma * e)
  = - e ^ 2 / 2 - ln (sigma * sqrt (2 * PI)).
Proof. intros Hsigma. unfold log_normal. field. lra. Qed.

Lemma affine_derivative l k a : derivable_pt_lim (affine l k) a k.
Proof.
  intros eps Heps. exists (mkposreal 1 Rlt_0_1). intros h Hh _.
  unfold affine.
  replace ((l + k * (a + h) - (l + k * a)) / h - k) with 0
    by (field; exact Hh).
  rewrite Rabs_R0. exact Heps.
Qed.

Lemma Normal_log_prob_values s d x mu sigma xs :
  data s (Normal.loc d) = Some [mu] ->
  data s (Normal.scale d) = Some [sigma] ->
  data s x = Some xs ->
  0 < sigma ->
  exists lp,
    log_prob d x s = Ok lp s
    /\ data s lp = Some (map (log_normal mu sigma) xs).
Proof.
  intros Hloc Hscale Hx Hsigma.
  destruct (Normal_log_prob_run s d x mu sigma xs Hloc Hscale Hx) as [q Hrun].
  eexists. split; [exact Hrun|].
  rewrite data_result. f_equal. apply map_ext. intros a.
  apply log_normal_eq. exact Hsigma.
Qed.

(** ** The lazy Gaussian model *)

(** C5. Every call of the forward pass builds a distribution object anew:
    the object count grows by one, the object differs from every object an
    earlier call returned, and its location and scale are computed from the
    parameter values that the store holds at the time of the call. *)
Theorem forward_builds_anew context s m c v :
  well_formed context s m -> data s c = Some v -> length v = context ->
  exists d s' mu log_sigma,
    forward m c s = Ok d s'
    /\ constructed s' = S (constructed s)
    /\ hyper_map s m v = [mu; log_sigma]
    /\ data s' (Normal.loc d) = Some [mu]
    /\ data s' (Normal.scale d) = Some [exp log_sigma]
    /\ (forall s0 c0 d0 s0',
          forward m c0 s0 = Ok d0 s0' ->
          (constructed s0' <= constructed s)%nat ->
          Normal.serial d0 <> Normal.serial d).
Proof.
  intros Hwf Hc Hv.
  destruct (forward_run context s m c v Hwf Hc Hv)
    as (l0 & l2 & mu & log_sigma & _ & Hmap & Hrun).
  eexists _, _, mu, log_sigma.
  split; [exact Hrun|]. split; [reflexivity|]. split; [exact Hmap|].
  split; [reflexivity|]. split; [reflexivity|].
  intros s0 c0 d0 s0' Hearlier Hle.
  apply forward_state in Hearlier as [-> Hid]. simpl in *. lia.
Qed.

Lemma forward_builds_anew_witness :
  exists d s' mu log_sigma,
    forward model8 (tensor (repeat 0 8)) state8 = Ok d s'
    /\ constructed s' = S (constructed state8)
    /\ hyper_map state8 model8 (repeat 0 8) = [mu; log_sigma]
    /\ data s' (Normal.loc d) = Some [mu]
    /\ data s' (Normal.scale d) = Some [exp log_sigma]
    /\ (forall s0 c0 d0 s0',
          forward model8 c0 s0 = Ok d0 s0' ->
          (constructed s0' <= constructed state8)%nat ->
          Normal.serial d0 <> Normal.serial d).
Proof.
  apply (forward_builds_anew 8 state8 model8 (tensor (repeat 0 8))
           (repeat 0 8)).
  - exact model8_well_formed.
  - reflexivity.
  - reflexivity.
Defined.

(** A parameter can be written without changing the shapes in the store:
    the module stays well formed. *)
Lemma Linear_ok_store s l p w old :
  Linear_ok s l -> params s !! p = Some old -> length w = length old ->
  Linear_ok (store p w s) l.
Proof.
  intros Hok Hold Hlen. unfold Linear_ok, store in *.
  cbn [params].
  assert (Hlk : forall q x, params s !! q = Some x ->
                  exists y, <[p := w]> (params s) !! q = Some y
                            /\ length y = length x).
  { intros q x Hq. destruct (decide (p = q)) as [<-|Hne].
    - exists w. rewrite list_lookup_insert_eq by (eapply lookup_lt_Some; eauto).
      split; [reflexivity | congruence].
    - exists x. rewrite list_lookup_insert_ne by assumption. auto. }
  destruct (params s !! nn.weight l) as [w0|] eqn:Hw; [|tauto].
  destruct (params s !! nn.bias l) as [b0|] eqn:Hb; [|tauto].
  destruct (Hlk _ _ Hw) as (w1 & -> & Hw1).
  destruct (Hlk _ _ Hb) as (b1 & -> & Hb1).
  destruct Hok. split; congruence.
Qed.

Lemma well_formed_store context s m p w old :
  well_formed context s m -> params s !! p = Some old ->
  length w = length old ->
  well_formed context (store p w s) m.
Proof.
  unfold well_formed. intros Hwf Hold Hlen.
  destruct (GaussianModel.hyper m) as [|[l0|] [|[|] [|[l2|] [|? ?]]]];
    try tauto.
  destruct Hwf as (? & ? & ? & ? & Hok0 & Hok2).
  repeat split; try assumption; eapply Linear_ok_store; eauto.
Qed.

(** C7. Writing the parameters of the module leaves a distribution that an
    earlier forward call built as it was: in every later state its location
    and scale are the values it was built with and [log_prob] evaluates the
    same density; a forward call in the later state returns a distribution
    computed from the parameters of that state. *)
Theorem built_distribution_keeps_parameters context s m c v :
  well_formed context s m -> data s c = Some v -> length v = context ->
  exists d s1 mu log_sigma,
    forward m c s = Ok d s1
    /\ hyper_map s m v = [mu; log_sigma]
    /\ (forall s2,
          data s2 (Normal.loc d) = Some [mu]
          /\ data s2 (Normal.scale d) = Some [exp log_sigma]
          /\ (forall x xs, data s2 x = Some xs ->
                exists lp,
                  log_prob d x s2 = Ok lp s2
                  /\ data s2 lp
                     = Some (map (log_normal mu (exp log_sigma)) xs)))
    /\ (forall p w old,
          params s1 !! p = Some old -> length w = length old ->
          data (store p w s1) c = Some v ->
          exists d2 s3 mu2 log_sigma2,
            forward m c (store p w s1) = Ok d2 s3
            /\ hyper_map (store p w s1) m v = [mu2; log_sigma2]
            /\ data s3 (Normal.loc d2) = Some [mu2]
            /\ data s3 (Normal.scale d2) = Some [exp log_sigma2]).
Proof.
  intros Hwf Hc Hv.
  destruct (forward_run context s m c v Hwf Hc Hv)
    as (l0 & l2 & mu & log_sigma & _ & Hmap & Hrun).
  eexists _, _, mu, log_sigma.
  split; [exact Hrun|]. split; [exact Hmap|]. split.
  - intros s2. split; [reflexivity|]. split; [reflexivity|].
    intros x xs Hx. apply Normal_log_prob_values; auto. apply exp_pos.
  - intros p w old Hold Hlen Hc2.
    assert (Hwf2 : well_formed context (store p w (built s)) m).
    { eapply well_formed_store; eauto. }
    destruct (forward_run context _ m c v Hwf2 Hc2 Hv)
      as (l0' & l2' & mu2 & log_sigma2 & _ & Hmap2 & Hrun2).
    eexists _, _, mu2, log_sigma2.
    split; [exact Hrun2|]. split; [exact Hmap2|].
    split; reflexivity.
Qed.

Lemma built_distribution_keeps_parameters_witness :
  exists d s1 mu log_sigma,
    forward model8 (tensor (repeat 0 8)) state8 = Ok d s1
    /\ hyper_map state8 model8 (repeat 0 8) = [mu; log_sigma]
    /\ (forall s2,
          data s2 (Normal.loc d) = Some [mu]
          /\ data s2 (Normal.scale d) = Some [exp log_sigma]
          /\ (forall x xs, data s2 x = Some xs ->
                exists lp,
                  log_prob d x s2 = Ok lp s2
                  /\ data s2 lp
                     = Some (map (log_normal mu (exp log_sigma)) xs)))
    /\ (forall p w old,
          params s1 !! p = Some old -> length w = length old ->
          data (store p w s1) (tensor (repeat 0 8)) = Some (repeat 0 8) ->
          exists d2 s3 mu2 log_sigma2,
            forward model8 (tensor (repeat 0 8)) (store p w s1) = Ok d2 s3
            /\ hyper_map (store p w s1) model8 (repeat 0 8)
               = [mu2; log_sigma2]
            /\ data s3 (Normal.loc d2) = Some [mu2]
            /\ data s3 (Normal.scale d2) = Some [exp log_sigma2]).
Proof.
  apply (built_distribution_keeps_parameters 8 state8 model8
           (tensor (repeat 0 8)) (repeat 0 8)).
  - exact model8_well_formed.
  - reflexivity.
  - reflexivity.
Defined.

(** What the property above excludes: a distribution built directly on a
    parameter keeps a view of it, and a later write of the parameter shows
    through. *)
Remark Normal_on_parameter_follows_store s p mu mu' d s1 :
  params s !! p = Some [mu] ->
  Normal.init (parameter p) (scalar 1) s = Ok d s1 ->
  data s1 (Normal.loc d) = Some [mu]
  /\ data (store p [mu'] s1) (Normal.loc d) = Some [mu'].
Proof.
  intros Hp. unfold Normal.init. cbn [data parameter scalar tensor storage_of].
  rewrite Hp, broadcast_same by reflexivity.
  intros [= <- <-]. cbn [Normal.loc data parameter storage_of built store params].
  split; [exact Hp|].
  apply list_lookup_insert_eq. eapply lookup_lt_Some; eauto.
Qed.

(** ** Gradients *)

Lemma forward_tensors_track s l0 l2 c v mu log_sigma p :
  grad_enabled s = true ->
  In p [nn.weight l0; nn.bias l0; nn.weight l2; nn.bias l2] ->
  tracks (mu_t s l0 l2 c v mu) p /\ tracks (sigma_t s l0 l2 c v log_sigma) p.
Proof.
  intros Hs Hp.
  assert (Hhid : In p [nn.weight l0; nn.bias l0] ->
                 tracks (hidden_t s l0 c v) p).
  { intros [<-|[<-|[]]]; (eapply tracks_result;
      [exact Hs | | apply tracks_parameter]); simpl; auto. }
  assert (Hout : tracks (out_t s l0 l2 c v) p).
  { destruct Hp as [<-|[<-|[<-|[<-|[]]]]].
    - eapply tracks_result; [exact Hs | left; reflexivity |].
      eapply tracks_result; [exact Hs | left; reflexivity |].
      apply Hhid. simpl; auto.
    - eapply tracks_result; [exact Hs | left; reflexivity |].
      eapply tracks_result; [exact Hs | left; reflexivity |].
      apply Hhid. simpl; auto.
    - eapply tracks_result; [exact Hs | | apply tracks_parameter].
      simpl; auto.
    - eapply tracks_result; [exact Hs | | apply tracks_parameter].
      simpl; auto. }
  split.
  - eapply tracks_result; [exact Hs | left; reflexivity | exact Hout].
  - eapply tracks_result; [exact Hs | left; reflexivity |].
    eapply tracks_result; [exact Hs | left; reflexivity | exact Hout].
Qed.

Lemma tracks_is_Some t p : tracks t p -> is_Some (edge t).
Proof. intros (n & Hn & _). eauto. Qed.

(** C8. For the distribution that the forward pass of the module returns,
    with gradients enabled: the value of [log_prob] is the output of a
    subtraction node and the value of [rsample] of an addition node, the
    graph of each reaches every parameter of the module, and the loss
    [-log_prob(x)] of a single value can be passed to [backward]; the value
    of [sample] is attached to no graph. *)
Theorem log_prob_and_rsample_carry_graph context s m c v x xs :
  well_formed context s m -> grad_enabled s = true ->
  data s c = Some v -> length v = context -> data s x = Some xs ->
  exists d s1,
    forward m c s = Ok d s1
    /\ (exists lp saved next,
          log_prob d x s1 = Ok lp s1
          /\ grad_fn lp = Some (Backward SubBackward0 saved next)
          /\ Forall (tracks lp) (parameters m))
    /\ (exists r s2 saved next,
          Normal.rsample d s1 = Ok r s2
          /\ grad_fn r = Some (Backward AddBackward0 saved next)
          /\ Forall (tracks r) (parameters m))
    /\ (exists z s2,
          sample d s1 = Ok z s2
          /\ grad_fn z = None /\ requires_grad z = false)
    /\ (forall autograd, length xs = 1%nat ->
          exists loss s3,
            (lp <- log_prob d x ;; torch.neg lp) s1 = Ok loss s1
            /\ backward autograd loss s1 = Ok tt s3).
Proof.
  intros Hwf Hs Hc Hv Hx.
  destruct (forward_run context s m c v Hwf Hc Hv)
    as (l0 & l2 & mu & log_sigma & Hhyper & Hmap & Hrun).
  set (d := {| Normal.loc := mu_t s l0 l2 c v mu;
               Normal.scale := sigma_t s l0 l2 c v log_sigma;
               Normal.serial := constructed s |}) in *.
  assert (Hparams : parameters m
                    = [nn.weight l0; nn.bias l0; nn.weight l2; nn.bias l2]).
  { simpl. unfold GaussianModel.parameters. rewrite Hhyper. reflexivity. }
  assert (Hs1 : grad_enabled (built s) = true) by exact Hs.
  assert (Hs2 : grad_enabled (advance 1 (built s)) = true) by exact Hs.
  destruct (Normal_log_prob_run (built s) d x mu (exp log_sigma) xs
              eq_refl eq_refl Hx) as [q Hlp].
  assert (Htr : forall p, In p (parameters m) ->
            tracks (result (built s) SubBackward0
                      [q; result (built s) LogBackward0 [Normal.scale d]
                            [ln (exp log_sigma)]]
                      (map (fun a => - (a - mu) ^ 2 / (2 * exp log_sigma ^ 2)
                                     - ln (exp log_sigma)) xs)) p).
  { intros p Hp. rewrite Hparams in Hp.
    eapply tracks_result; [exact Hs1 | right; left; reflexivity |].
    eapply tracks_result; [exact Hs1 | left; reflexivity |].
    apply (forward_tensors_track s l0 l2 c v mu log_sigma p Hs Hp). }
  exists d, (built s). split; [exact Hrun|]. split; [|split; [|split]].
  - eexists _, _, _. split; [exact Hlp|]. split.
    + eapply grad_fn_result; [exact Hs1 | left; reflexivity |].
      eapply tracks_is_Some, Htr. rewrite Hparams. left. reflexivity.
    + apply Forall_forall. intros p Hp.
      eapply tracks_result; [exact Hs1 | left; reflexivity |].
      apply Htr. apply list_elem_of_In. exact Hp.
  - rewrite (Normal_rsample_run (built s) d mu (exp log_sigma) eq_refl eq_refl).
    eexists _, _, _, _. split; [reflexivity|]. split.
    + eapply grad_fn_result; [exact Hs2 | left; reflexivity |].
      eapply tracks_is_Some.
      apply (forward_tensors_track s l0 l2 c v mu log_sigma (nn.weight l0) Hs).
      left. reflexivity.
    + apply Forall_forall. intros p Hp. apply list_elem_of_In in Hp.
      rewrite Hparams in Hp.
      eapply tracks_result; [exact Hs2 | left; reflexivity |].
      apply (forward_tensors_track s l0 l2 c v mu log_sigma p Hs Hp).
  - destruct (Normal_sample_run (built s) d mu (exp log_sigma) eq_refl eq_refl)
      as (z & Hz & _ & Hg & Hr).
    { left. apply exp_pos. }
    exists z, (advance 1 (built s)). auto.
  - intros autograd Hlen.
    destruct xs as [|x0 [|? ?]]; try discriminate.
    change (log_prob d x) with (Normal.log_prob d x).
    erewrite bind_run by exact Hlp.
    unfold torch.neg. erewrite unary_run by apply data_result.
    eexists _, _. split; [reflexivity|].
    unfold backward. rewrite edge_result.
    erewrite grad_fn_result; [| exact Hs1 | left; reflexivity |].
    2:{ eapply tracks_is_Some.
        eapply tracks_result; [exact Hs1 | left; reflexivity |].
        apply Htr. rewrite Hparams. left. reflexivity. }
    rewrite data_result. simpl. reflexivity.
Qed.

Lemma log_prob_and_rsample_carry_graph_witness :
  exists d s1,
    forward model8 (tensor (repeat 0 8)) state8 = Ok d s1
    /\ (exists lp saved next,
          log_prob d (tensor [0]) s1 = Ok lp s1
          /\ grad_fn lp = Some (Backward SubBackward0 saved next)
          /\ Forall (tracks lp) (parameters model8))
    /\ (exists r s2 saved next,
          Normal.rsample d s1 = Ok r s2
          /\ grad_fn r = Some (Backward AddBackward0 saved next)
          /\ Forall (tracks r) (parameters model8))
    /\ (exists z s2,
          sample d s1 = Ok z s2
          /\ grad_fn z = None /\ requires_grad z = false)
    /\ (forall autograd, length [0] = 1%nat ->
          exists loss s3,
            (lp <- log_prob d (tensor [0]) ;; torch.neg lp) s1 = Ok loss s1
            /\ backward autograd loss s1 = Ok tt s3).
Proof.
  apply (log_prob_and_rsample_carry_graph 8 state8 model8
           (tensor (repeat 0 8)) (repeat 0 8) (tensor [0]) [0]).
  - exact model8_well_formed.
  - reflexivity.
  - reflexivity.
  - reflexivity.
  - reflexivity.
Defined.

(** ** The Normal distribution *)

Lemma Normal_init_run s loc scale m d :
  data s loc = Some m -> data s scale = Some d ->
  length m = length d \/ length m = 1%nat \/ length d = 1%nat ->
  Normal.init loc scale s
  = Ok {| Normal.loc := loc; Normal.scale := scale;
          Normal.serial := constructed s |} (built s).
Proof.
  intros Hloc Hscale Hlen. unfold Normal.init. rewrite Hloc, Hscale.
  destruct Hlen as [Hlen|[Hlen|Hlen]].
  - rewrite broadcast_same by exact Hlen. reflexivity.
  - destruct m as [|a [|? ?]]; try discriminate.
    rewrite broadcast_scalar_l. reflexivity.
  - destruct d as [|a [|? ?]]; try discriminate.
    rewrite broadcast_scalar_r. reflexivity.
Qed.

Lemma Normal_init_inv s loc scale d s1 :
  Normal.init loc scale s = Ok d s1 ->
  d = {| Normal.loc := loc; Normal.scale := scale;
         Normal.serial := constructed s |}
  /\ s1 = built s
  /\ exists ms ss md,
       data s loc = Some ms /\ data s scale = Some ss
       /\ broadcast pair ms ss = Some md.
Proof.
  unfold Normal.init.
  destruct (data s loc) as [ms|]; [|discriminate].
  destruct (data s scale) as [ss|]; [|discriminate].
  destruct (broadcast pair ms ss) as [md|] eqn:Hmd; [|discriminate].
  intros [= <- <-]. split; [reflexivity|]. split; [reflexivity|].
  exists ms, ss, md. auto.
Qed.

(** [log_prob] on vectors: the location and the scale are broadcast to the
    shape of the value. *)
Lemma Normal_log_prob_vector s d x ms ss xs :
  data s (Normal.loc d) = Some ms ->
  data s (Normal.scale d) = Some ss ->
  data s x = Some xs ->
  fits (length xs) ms -> fits (length xs) ss ->
  Forall (fun sigma => 0 < sigma) ss ->
  exists lp,
    Normal.log_prob d x s = Ok lp s
    /\ data s lp
       = Some (zip3 log_normal (spread (length xs) ms)
                 (spread (length xs) ss) xs).
Proof.
  intros Hm Hs Hx Hfm Hfs Hpos.
  set (n := length xs) in *.
  unfold Normal.log_prob, torch.pow, torch.log, torch.sub, torch.neg,
    torch.mul, torch.div.
  do 2 run.
  erewrite bind_run.
  2:{ eapply binary_run; [exact Hx | exact Hm |].
      apply (broadcast_spread _ _ _ n);
        [apply fits_refl | assumption | left; reflexivity]. }
  assert (Hd : length (zip_with Rminus (spread n xs) (spread n ms)) = n).
  { apply length_zip_spread; [apply fits_refl | assumption]. }
  do 3 run.
  erewrite bind_run.
  2:{ eapply binary_run; [apply data_result | apply data_result |].
      apply (broadcast_spread _ _ _ n).
      - right. rewrite !length_map. exact Hd.
      - destruct Hfs as [Hfs|Hfs]; [left|right]; rewrite !length_map;
          exact Hfs.
      - left. rewrite !length_map. exact Hd. }
  assert (Hv : fits n (map (Rmult 2) (map (fun x0 => x0 ^ 2) ss))).
  { destruct Hfs as [Hfs|Hfs]; [left|right]; rewrite !length_map; exact Hfs. }
  assert (Hq : length (zip_with Rdiv
                 (spread n (map Ropp (map (fun x0 => x0 ^ 2)
                    (zip_with Rminus (spread n xs) (spread n ms)))))
                 (spread n (map (Rmult 2) (map (fun x0 => x0 ^ 2) ss)))) = n).
  { apply length_zip_spread; [|exact Hv]. right. rewrite !length_map.
    exact Hd. }
  erewrite bind_run.
  2:{ eapply binary_run; [apply data_result | apply data_result |].
      apply (broadcast_spread _ _ _ n).
      - right. exact Hq.
      - destruct Hfs as [Hfs|Hfs]; [left|right]; rewrite !length_map;
          exact Hfs.
      - left. exact Hq. }
  run.
  eexists. split; [reflexivity|]. rewrite data_result. f_equal.
  rewrite (spread_id n (zip_with Rdiv _ _)) by exact Hq.
  rewrite !spread_map. rewrite (spread_id n (zip_with Rminus _ _)) by exact Hd.
  rewrite (spread_id n xs) by reflexivity.
  pointwise.
  destruct (xs !! i) as [a|], (spread n ms !! i) as [mu|],
    (spread n ss !! i) as [sigma|] eqn:Hsi; simpl; try reflexivity.
  f_equal. apply log_normal_eq.
  eapply (Forall_lookup_1 _ _ _ _ (Forall_spread _ n ss Hpos)). exact Hsi.
Qed.

(** [sample] on vectors: one draw per element of the batch shape. *)
Lemma Normal_sample_vector s d ms ss md :
  data s (Normal.loc d) = Some ms ->
  data s (Normal.scale d) = Some ss ->
  broadcast pair ms ss = Some md ->
  Forall (fun sigma => 0 <= sigma) ss ->
  exists z,
    Normal.sample d s = Ok z (advance (length md) s)
    /\ data (advance (length md) s) z
       = Some (zip3 affine (spread (length md) ms) (spread (length md) ss)
                 (map (entropy s) (seq (generator s) (length md))))
    /\ grad_fn z = None.
Proof.
  intros Hm Hs Hmd Hpos.
  destruct (broadcast_shape _ _ _ _ Hmd) as (Hfm & Hfs & Hn).
  eexists. split; [|split].
  - unfold Normal.sample. erewrite no_grad_run.
    2:{ unfold torch.normal.
        change (data (State (params s) (grads s) (entropy s) (generator s)
                        false (constructed s))) with (data s).
        rewrite Hm, Hs, Hmd. rewrite decide_True by exact Hpos.
        unfold bind, torch.draw. reflexivity. }
    reflexivity.
  - rewrite data_result. f_equal.
    rewrite (broadcast_spread _ _ _ (length md)) in Hmd by assumption.
    injection Hmd as Hmd. set (b := length md) in *. rewrite <- Hmd.
    unfold zip3. cbn [generator entropy].
    apply list_eq. intros i. rewrite !lookup_zip_with.
    destruct (spread b ms !! i), (spread b ss !! i); reflexivity.
  - apply grad_fn_result_no_grad. reflexivity.
Qed.

Lemma Normal_log_density s (d : Normal.t) ms ss n :
  data s (Normal.loc d) = Some ms ->
  data s (Normal.scale d) = Some ss ->
  fits n ms -> fits n ss -> Forall (fun sigma => 0 < sigma) ss ->
  log_density d (params s) (zip_with log_normal (spread n ms) (spread n ss)).
Proof.
  intros Hm Hs Hfm Hfs Hpos s' x xs HP Hx Hn.
  rewrite length_zip_spread in Hn by assumption.
  rewrite <- (data_params s s') in Hm, Hs by exact HP.
  rewrite <- Hn in Hfm, Hfs.
  destruct (Normal_log_prob_vector s' d x ms ss xs Hm Hs Hx Hfm Hfs Hpos)
    as (lp & Hlp & Hd).
  exists lp. split; [exact Hlp|]. rewrite Hd, Hn. f_equal. pointwise.
  destruct (spread n ms !! i), (spread n ss !! i), (xs !! i); reflexivity.
Qed.

Lemma Normal_sampler s (d : Normal.t) ms ss md :
  data s (Normal.loc d) = Some ms ->
  data s (Normal.scale d) = Some ss ->
  broadcast pair ms ss = Some md ->
  Forall (fun sigma => 0 <= sigma) ss ->
  sampler d (params s)
    (zip_with affine (spread (length md) ms) (spread (length md) ss)).
Proof.
  intros Hm Hs Hmd Hpos s' HP.
  destruct (broadcast_shape _ _ _ _ Hmd) as (Hfm & Hfs & _).
  rewrite length_zip_spread by assumption.
  rewrite <- (data_params s s') in Hm, Hs by exact HP.
  destruct (Normal_sample_vector s' d ms ss md Hm Hs Hmd Hpos)
    as (z & Hz & Hd & _).
  exists z. split; [exact Hz|]. rewrite Hd. f_equal. pointwise.
  destruct (spread (length md) ms !! i), (spread (length md) ss !! i);
    reflexivity.
Qed.

(** The value mu + sigma * e of a standard normal draw e has the Gaussian
    log-density of location mu and scale sigma. *)
Lemma Normal_follows mu sigma :
  0 < sigma -> follows (log_normal mu sigma) (affine mu sigma).
Proof.
  intros Hsigma. exists (fun _ => sigma). intros e.
  split; [apply affine_derivative|]. split; [lra|].
  unfold affine. rewrite log_normal_at_draw by exact Hsigma.
  rewrite Rabs_pos_eq by lra.
  assert (0 < sqrt (2 * PI)).
  { apply sqrt_lt_R0. pose proof PI_RGT_0. lra. }
  unfold log_normal. rewrite ln_mult by assumption.
  rewrite Rmult_1_l. field.
Qed.

Lemma Forall2_follows_Normal ms ss :
  Forall (fun sigma => 0 < sigma) ss ->
  Forall2 follows (zip_with log_normal ms ss) (zip_with affine ms ss).
Proof.
  intros Hpos. apply Forall2_same_length_lookup. split.
  - rewrite !length_zip_with. reflexivity.
  - intros i p q Hp Hq.
    apply lookup_zip_with_Some in Hp as (mu & sigma & -> & Hmi & Hsi).
    apply lookup_zip_with_Some in Hq as (mu' & sigma' & -> & Hmi' & Hsi').
    assert (mu' = mu) as -> by congruence.
    assert (sigma' = sigma) as -> by congruence.
    apply Normal_follows. eapply Forall_lookup_1; eauto.
Qed.

(** A flow of a bijective transformation over a base whose [sample] and
    [log_prob] compute values has a [sample] and a [log_prob] that compute
    values: the inverse maps of the values of the base's sample, and the
    change of variables of the base's log-densities. *)
Lemma NormalizingFlow_sampler {T D} `{Transform T} `{Distribution D}
  (flow : NormalizingFlow.t T D) P Fs Js Gs qs :
  bijective (NormalizingFlow.transform flow) P Fs Js Gs ->
  sampler (NormalizingFlow.base flow) P qs ->
  length qs = length Fs ->
  sampler flow P (inverse_images Gs qs).
Proof.
  intros Hb Hq Hlen s HP. unfold inverse_images.
  destruct Hb as [[_ HG] _ _ _ Hinverse _].
  rewrite length_zip_with, HG, Hlen, Nat.min_id, <- Hlen.
  set (s0 := State (params s) (grads s) (entropy s) (generator s) false
               (constructed s)).
  destruct (Hq s0 HP) as (z & Hz & Hzd).
  destruct (Hinverse (advance (length qs) s0) z _ HP Hzd) as (x & Hx & Hxd).
  { rewrite length_ap; [exact Hlen|]. rewrite length_map, length_seq.
    reflexivity. }
  exists x. split.
  - cbn [sample NormalizingFlow_Distribution]. unfold NormalizingFlow.sample.
    erewrite no_grad_run.
    2:{ erewrite bind_run by exact Hz. exact Hx. }
    reflexivity.
  - change (data (advance (length qs) s) x)
      with (data (advance (length qs) s0) x).
    rewrite Hxd. f_equal. cbn [entropy generator s0]. pointwise.
    destruct (Gs !! i), (qs !! i); simpl; try reflexivity.
    destruct (seq (generator s) (length qs) !! i); reflexivity.
Qed.

Lemma NormalizingFlow_log_density {T D} `{Transform T} `{Distribution D}
  (flow : NormalizingFlow.t T D) P Fs Js Gs ps :
  bijective (NormalizingFlow.transform flow) P Fs Js Gs ->
  log_density (NormalizingFlow.base flow) P ps ->
  length ps = length Fs ->
  log_density flow P (change_of_variables Fs Js ps).
Proof.
  intros Hb Hp Hlen.
  destruct Hb as [[HJ HG] Hder _ Hcall _ Hladj].
  intros s x xs HP Hx Hn. unfold change_of_variables in *.
  rewrite (length_zip3 _ _ _ _ (length Fs)) in Hn by auto.
  destruct (Hcall s x xs HP Hx Hn) as (z & Hz & Hzd).
  destruct (Hladj s x xs z HP Hx Hn Hzd) as (ladj & Hl & Hld).
  destruct (Hp s z _ HP Hzd) as (lp & Hlp & Hlpd).
  { rewrite length_ap; lia. }
  cbn [log_prob NormalizingFlow_Distribution].
  unfold NormalizingFlow.log_prob.
  erewrite bind_run by exact Hz.
  erewrite bind_run by exact Hl.
  erewrite bind_run by exact Hlp.
  unfold torch.add. erewrite binary_run; [| exact Hlpd | exact Hld |].
  2:{ apply broadcast_same. unfold ap.
      rewrite !length_zip_with, length_map. lia. }
  eexists. split; [reflexivity|]. rewrite data_result. f_equal. pointwise.
  destruct (Fs !! i), (Js !! i), (ps !! i), (xs !! i); reflexivity.
Qed.

(** C6 (amended). A Normal distribution object holds the location and the
    scale it was built with, whatever they are.  When no element of the
    scale is negative, [sample] returns, for each element of the batch
    shape, the location plus the scale times a draw of the generator.
    When every element of the scale is positive, [log_prob] returns, for
    each element x of a value of the shape that location and scale
    broadcast to, -((x - mu)^2)/(2 sigma^2) - log(sigma * sqrt(2 pi)), and
    the value of [sample] follows this log-density when the draws are
    standard normal.  The other distribution objects, the flows, have a
    [sample] and a [log_prob] that compute values whenever those of their
    base do and their transformation is a bijection. *)
Theorem Normal_sample_and_log_prob s loc scale ms ss d s1 :
  data s loc = Some ms -> data s scale = Some ss ->
  Normal.init loc scale s = Ok d s1 ->
  Normal.loc d = loc /\ Normal.scale d = scale
  /\ data s1 (Normal.loc d) = Some ms
  /\ data s1 (Normal.scale d) = Some ss
  /\ (Forall (fun sigma => 0 <= sigma) ss ->
      exists b z,
        fits b ms /\ fits b ss /\ (length ms = b \/ length ss = b)
        /\ sample d s1 = Ok z (advance b s1)
        /\ data (advance b s1) z
           = Some (zip3 (fun mu sigma e => mu + sigma * e)
                     (spread b ms) (spread b ss)
                     (map (entropy s1) (seq (generator s1) b))))
  /\ (Forall (fun sigma => 0 < sigma) ss ->
      forall x xs,
        data s1 x = Some xs ->
        fits (length xs) ms -> fits (length xs) ss ->
        exists lp,
          log_prob d x s1 = Ok lp s1
          /\ data s1 lp
             = Some (zip3 (fun mu sigma a =>
                             - ((a - mu) ^ 2) / (2 * sigma ^ 2)
                             - ln (sigma * sqrt (2 * PI)))
                       (spread (length xs) ms) (spread (length xs) ss) xs))
  /\ (Forall (fun sigma => 0 < sigma) ss ->
      forall b,
        Forall2 follows
          (zip_with (fun mu sigma a =>
                       - ((a - mu) ^ 2) / (2 * sigma ^ 2)
                       - ln (sigma * sqrt (2 * PI)))
             (spread b ms) (spread b ss))
          (zip_with (fun mu sigma e => mu + sigma * e)
             (spread b ms) (spread b ss)))
  /\ (forall T D (HT : Transform T) (HD : Distribution D)
             (flow : NormalizingFlow.t T D) Fs Js Gs ps qs,
        bijective (NormalizingFlow.transform flow) (params s1) Fs Js Gs ->
        log_density (NormalizingFlow.base flow) (params s1) ps ->
        sampler (NormalizingFlow.base flow) (params s1) qs ->
        length ps = length Fs -> length qs = length Fs ->
        log_density flow (params s1) (change_of_variables Fs Js ps)
        /\ sampler flow (params s1) (inverse_images Gs qs)).
Proof.
  intros Hm Hs Hinit.
  destruct (Normal_init_inv s loc scale d s1 Hinit)
    as (-> & -> & ms' & ss' & md & Hm' & Hs' & Hmd).
  assert (ms' = ms) as -> by congruence.
  assert (ss' = ss) as -> by congruence.
  cbn [Normal.loc Normal.scale].
  split; [reflexivity|]. split; [reflexivity|].
  split; [exact Hm|]. split; [exact Hs|]. split; [|split; [|split]].
  4:{ intros T D HT HD flow Fs Js Gs ps qs Hbij Hps Hqs Hlp Hlq. split.
      - apply (NormalizingFlow_log_density flow _ Fs Js Gs ps Hbij Hps Hlp).
      - apply (NormalizingFlow_sampler flow _ Fs Js Gs qs Hbij Hqs Hlq). }
  - intros Hpos.
    destruct (broadcast_shape _ _ _ _ Hmd) as (Hfm & Hfs & Hb).
    destruct (Normal_sample_vector (built s)
                {| Normal.loc := loc; Normal.scale := scale;
                   Normal.serial := constructed s |} ms ss md Hm Hs Hmd Hpos)
      as (z & Hz & Hzd & _).
    exists (length md), z. auto.
  - intros Hpos x xs Hx Hfm Hfs.
    apply (Normal_log_prob_vector (built s)
             {| Normal.loc := loc; Normal.scale := scale;
                Normal.serial := constructed s |} x ms ss xs Hm Hs Hx
             Hfm Hfs Hpos).
  - intros Hpos b.
    apply (Forall2_follows_Normal (spread b ms) (spread b ss)).
    apply Forall_spread. exact Hpos.
Qed.

Lemma Normal_sample_and_log_prob_witness :
  Normal.loc standard_normal = tensor [0]
  /\ Normal.scale standard_normal = tensor [1]
  /\ data (built fresh) (Normal.loc standard_normal) = Some [0]
  /\ data (built fresh) (Normal.scale standard_normal) = Some [1]
  /\ (Forall (fun sigma => 0 <= sigma) [1] ->
      exists b z,
        fits b [0] /\ fits b [1] /\ (length [0] = b \/ length [1] = b)
        /\ sample standard_normal (built fresh) = Ok z (advance b (built fresh))
        /\ data (advance b (built fresh)) z
           = Some (zip3 (fun mu sigma e => mu + sigma * e)
                     (spread b [0]) (spread b [1])
                     (map (entropy (built fresh))
                        (seq (generator (built fresh)) b))))
  /\ (Forall (fun sigma => 0 < sigma) [1] ->
      forall x xs,
        data (built fresh) x = Some xs ->
        fits (length xs) [0] -> fits (length xs) [1] ->
        exists lp,
          log_prob standard_normal x (built fresh) = Ok lp (built fresh)
          /\ data (built fresh) lp
             = Some (zip3 (fun mu sigma a =>
                             - ((a - mu) ^ 2) / (2 * sigma ^ 2)
                             - ln (sigma * sqrt (2 * PI)))
                       (spread (length xs) [0]) (spread (length xs) [1]) xs))
  /\ (Forall (fun sigma => 0 < sigma) [1] ->
      forall b,
        Forall2 follows
          (zip_with (fun mu sigma a =>
                       - ((a - mu) ^ 2) / (2 * sigma ^ 2)
                       - ln (sigma * sqrt (2 * PI)))
             (spread b [0]) (spread b [1]))
          (zip_with (fun mu sigma e => mu + sigma * e)
             (spread b [0]) (spread b [1])))
  /\ (forall T D (HT : Transform T) (HD : Distribution D)
             (flow : NormalizingFlow.t T D) Fs Js Gs ps qs,
        bijective (NormalizingFlow.transform flow) (params (built fresh))
          Fs Js Gs ->
        log_density (NormalizingFlow.base flow) (params (built fresh)) ps ->
        sampler (NormalizingFlow.base flow) (params (built fresh)) qs ->
        length ps = length Fs -> length qs = length Fs ->
        log_density flow (params (built fresh)) (change_of_variables Fs Js ps)
        /\ sampler flow (params (built fresh)) (inverse_images Gs qs)).
Proof.
  apply (Normal_sample_and_log_prob fresh (tensor [0]) (tensor [1]) [0] [1]
           standard_normal (built fresh)).
  - reflexivity.
  - reflexivity.
  - reflexivity.
Defined.

(** C6, as stated, fails for the Normal distribution of scale -1: the
    constructor, which does not validate its arguments, returns the
    object, and [sample] of the object raises an error instead of drawing
    a realization. *)
Lemma Normal_negative_scale_not_sampled :
  exists d,
    Normal.init (tensor [0]) (tensor [-1]) fresh = Ok d (built fresh)
    /\ data (built fresh) (Normal.scale d) = Some [-1]
    /\ sample d (built fresh) = Raise RuntimeError.
Proof.
  eexists. split; [reflexivity|]. split; [reflexivity|].
  cbn [sample Normal_Distribution]. unfold Normal.sample, torch.no_grad,
    torch.normal.
  cbn [data tensor storage_of Normal.loc Normal.scale].
  rewrite broadcast_same by reflexivity.
  rewrite decide_False; [reflexivity|].
  intros Hall. inversion Hall; subst. lra.
Qed.

(** The first cells of the tutorial: the standard Normal distribution is
    what the constructor returns, and its log-density is attached to no
    graph. *)
Example standard_normal_init :
  Normal.init (tensor [0]) (tensor [1]) fresh = Ok standard_normal (built fresh).
Proof. reflexivity. Qed.

Example standard_normal_log_prob_no_graph x :
  exists lp,
    log_prob standard_normal (tensor [x]) (built fresh) = Ok lp (built fresh)
    /\ grad_fn lp = None.
Proof. eexists. split; reflexivity. Qed.

Example flow23_init :
  NormalizingFlow.init transform23 standard_normal (built fresh)
  = Ok flow23 (built (built fresh)).
Proof. reflexivity. Qed.

(** ** The affine transformation *)

Lemma AffineTransform_call_run s t l k x xs :
  data s (AffineTransform.loc t) = Some [l] ->
  data s (AffineTransform.scale t) = Some [k] ->
  data s x = Some xs ->
  exists e,
    AffineTransform.call t x s
    = Ok (result s AddBackward0 [AffineTransform.loc t; e]
            (map (affine l k) xs)) s.
Proof.
  intros Hl Hk Hx. eexists.
  unfold AffineTransform.call, torch.mul, torch.add.
  do 2 run. rewrite map_map. reflexivity.
Qed.

Lemma AffineTransform_inverse_run s t l k y ys :
  data s (AffineTransform.loc t) = Some [l] ->
  data s (AffineTransform.scale t) = Some [k] ->
  data s y = Some ys ->
  exists d,
    AffineTransform.inverse t y s
    = Ok (result s DivBackward0 [d; AffineTransform.scale t]
            (map (fun b => (b - l) / k) ys)) s.
Proof.
  intros Hl Hk Hy. eexists.
  unfold AffineTransform.inverse, torch.sub, torch.div.
  do 2 run. rewrite map_map. reflexivity.
Qed.

Lemma AffineTransform_ladj_run s t k x xs y :
  data s (AffineTransform.scale t) = Some [k] ->
  data s x = Some xs ->
  exists ladj,
    AffineTransform.log_abs_det_jacobian t x y s = Ok ladj s
    /\ data s ladj = Some (map (fun _ => ln (Rabs k)) xs).
Proof.
  intros Hk Hx.
  unfold AffineTransform.log_abs_det_jacobian, torch.abs, torch.log.
  do 2 run. unfold torch.expand. rewrite data_result, Hx.
  cbn [map length].
  case_decide as Hlen.
  - eexists. split; [reflexivity|]. rewrite data_result.
    destruct xs as [|a [|? ?]]; try discriminate. reflexivity.
  - eexists. split; [reflexivity|]. rewrite data_result. f_equal.
    clear. induction xs as [|a xs IH]; simpl; [reflexivity|].
    rewrite IH. reflexivity.
Qed.

(** *** Vectors of locations and scales *)

Lemma affine_inv_derivative l k b :
  k <> 0 -> derivable_pt_lim (affine_inv l k) b (/ k).
Proof.
  intros Hk eps Heps. exists (mkposreal 1 Rlt_0_1). intros h Hh _.
  unfold affine_inv.
  replace ((b + h - l) / k - (b - l) / k) with (h / k) by (field; exact Hk).
  replace (h / k / h - / k) with 0 by (field; split; assumption).
  rewrite Rabs_R0. exact Heps.
Qed.

Lemma AffineTransform_call_values s t ls ks x xs :
  data s (AffineTransform.loc t) = Some ls ->
  data s (AffineTransform.scale t) = Some ks ->
  data s x = Some xs ->
  fits (length xs) ls -> fits (length xs) ks ->
  exists y,
    AffineTransform.call t x s = Ok y s
    /\ data s y
       = Some (zip3 affine (spread (length xs) ls) (spread (length xs) ks) xs).
Proof.
  intros Hl Hk Hx Hfl Hfk.
  unfold AffineTransform.call, torch.mul, torch.add.
  erewrite bind_run.
  2:{ eapply binary_run; [exact Hk | exact Hx |].
      apply (broadcast_spread _ _ _ (length xs));
        [assumption | right; reflexivity | right; reflexivity]. }
  erewrite binary_run; [| exact Hl | apply data_result |].
  2:{ assert (Hlen : length (zip_with Rmult (spread (length xs) ks)
                                  (spread (length xs) xs)) = length xs).
      { apply length_zip_spread; [assumption | apply fits_refl]. }
      apply (broadcast_spread _ _ _ (length xs));
        [assumption | right; exact Hlen | right; exact Hlen]. }
  eexists. split; [reflexivity|]. rewrite data_result. f_equal.
  rewrite (spread_id _ (zip_with _ _ _)).
  2:{ apply length_zip_spread; [assumption | apply fits_refl]. }
  rewrite (spread_id _ xs) by reflexivity.
  pointwise.
  destruct (spread (length xs) ls !! i), (spread (length xs) ks !! i),
    (xs !! i); reflexivity.
Qed.

Lemma AffineTransform_inverse_values s t ls ks y ys :
  data s (AffineTransform.loc t) = Some ls ->
  data s (AffineTransform.scale t) = Some ks ->
  data s y = Some ys ->
  fits (length ys) ls -> fits (length ys) ks ->
  exists x,
    AffineTransform.inverse t y s = Ok x s
    /\ data s x
       = Some (zip3 affine_inv (spread (length ys) ls)
                 (spread (length ys) ks) ys).
Proof.
  intros Hl Hk Hy Hfl Hfk.
  unfold AffineTransform.inverse, torch.sub, torch.div.
  erewrite bind_run.
  2:{ eapply binary_run; [exact Hy | exact Hl |].
      apply (broadcast_spread _ _ _ (length ys));
        [right; reflexivity | assumption | left; reflexivity]. }
  erewrite binary_run; [| apply data_result | exact Hk |].
  2:{ assert (Hlen : length (zip_with Rminus (spread (length ys) ys)
                                  (spread (length ys) ls)) = length ys).
      { apply length_zip_spread; [apply fits_refl | assumption]. }
      apply (broadcast_spread _ _ _ (length ys));
        [right; exact Hlen | assumption | left; exact Hlen]. }
  eexists. split; [reflexivity|]. rewrite data_result. f_equal.
  rewrite (spread_id _ (zip_with _ _ _)).
  2:{ apply length_zip_spread; [apply fits_refl | assumption]. }
  rewrite (spread_id _ ys) by reflexivity.
  pointwise.
  destruct (spread (length ys) ls !! i), (spread (length ys) ks !! i),
    (ys !! i); reflexivity.
Qed.

Lemma AffineTransform_ladj_values s t ks x xs y :
  data s (AffineTransform.scale t) = Some ks ->
  data s x = Some xs ->
  fits (length xs) ks ->
  exists ladj,
    AffineTransform.log_abs_det_jacobian t x y s = Ok ladj s
    /\ data s ladj
       = Some (map (fun k => ln (Rabs k)) (spread (length xs) ks)).
Proof.
  intros Hk Hx Hfk.
  unfold AffineTransform.log_abs_det_jacobian, torch.abs, torch.log.
  do 2 run. unfold torch.expand. rewrite data_result, Hx.
  rewrite !length_map, map_map.
  case_decide as Hlen.
  - eexists. split; [reflexivity|]. rewrite data_result.
    rewrite spread_id by exact Hlen. reflexivity.
  - destruct Hfk as [Hfk|Hfk]; [|contradiction].
    destruct ks as [|k [|? ?]]; try discriminate. simpl.
    eexists. split; [reflexivity|]. rewrite data_result. f_equal.
    change (replicate (length xs) (ln (Rabs k))
            = (fun k => ln (Rabs k)) <$> replicate (length xs) k).
    rewrite fmap_replicate. reflexivity.
Qed.

(** An affine transformation whose scale has no zero element is a
    bijection, on every shape that its location and scale broadcast to. *)
Lemma AffineTransform_bijective s (t : AffineTransform.t) ls ks n :
  data s (AffineTransform.loc t) = Some ls ->
  data s (AffineTransform.scale t) = Some ks ->
  fits n ls -> fits n ks -> Forall (fun k => k <> 0) ks ->
  bijective t (params s)
    (zip_with affine (spread n ls) (spread n ks))
    (map (fun k _ => k) (spread n ks))
    (zip_with affine_inv (spread n ls) (spread n ks)).
Proof.
  intros Hl Hk Hfl Hfk Hk0.
  assert (HL : length (spread n ls) = n) by (apply length_spread; exact Hfl).
  assert (HK : length (spread n ks) = n) by (apply length_spread; exact Hfk).
  assert (Hlen : forall g : R -> R -> R -> R,
             length (zip_with g (spread n ls) (spread n ks)) = n).
  { intros g. rewrite length_zip_with. lia. }
  assert (HK0 : forall i k, spread n ks !! i = Some k -> k <> 0).
  { intros i k Hi. eapply (Forall_lookup_1 _ _ _ _ (Forall_spread _ n ks Hk0)).
    exact Hi. }
  split.
  - rewrite length_map, !Hlen. lia.
  - intros i F J G HF HJ HG.
    apply lookup_zip_with_Some in HF as (l & k & -> & Hli & Hki).
    apply lookup_zip_with_Some in HG as (l' & k' & -> & Hli' & Hki').
    rewrite lookup_map, Hki in HJ. injection HJ as <-.
    assert (l' = l) as -> by congruence. assert (k' = k) as -> by congruence.
    split.
    + intros a. split; [apply affine_derivative | eauto].
    + intros b. apply affine_inv_derivative. eauto.
  - intros i F G HF HG.
    apply lookup_zip_with_Some in HF as (l & k & -> & Hli & Hki).
    apply lookup_zip_with_Some in HG as (l' & k' & -> & Hli' & Hki').
    assert (l' = l) as -> by congruence. assert (k' = k) as -> by congruence.
    intros a. unfold affine, affine_inv. split; field; eauto.
  - intros s' x xs HP Hx Hn. rewrite Hlen in Hn.
    rewrite <- (data_params s s') in Hl, Hk by exact HP.
    rewrite <- Hn in Hfl, Hfk.
    destruct (AffineTransform_call_values s' t ls ks x xs Hl Hk Hx Hfl Hfk)
      as (y & Hy & Hd).
    exists y. split; [exact Hy|]. rewrite Hd, Hn. f_equal. pointwise.
    destruct (spread n ls !! i), (spread n ks !! i), (xs !! i); reflexivity.
  - intros s' y ys HP Hy Hn. rewrite Hlen in Hn.
    rewrite <- (data_params s s') in Hl, Hk by exact HP.
    rewrite <- Hn in Hfl, Hfk.
    destruct (AffineTransform_inverse_values s' t ls ks y ys Hl Hk Hy Hfl Hfk)
      as (x & Hx & Hd).
    exists x. split; [exact Hx|]. rewrite Hd, Hn. f_equal. pointwise.
    destruct (spread n ls !! i), (spread n ks !! i), (ys !! i); reflexivity.
  - intros s' x xs y HP Hx Hn _. rewrite Hlen in Hn.
    rewrite <- (data_params s s') in Hk by exact HP.
    rewrite <- Hn in Hfk.
    destruct (AffineTransform_ladj_values s' t ks x xs y Hk Hx Hfk)
      as (l & Hrun & Hd).
    exists l. split; [exact Hrun|]. rewrite Hd, Hn. f_equal.
    rewrite map_map. pointwise.
    destruct (spread n ks !! i) as [k|] eqn:Hki; simpl.
    + destruct (xs !! i) as [a|] eqn:Hxi; [reflexivity|].
      apply lookup_ge_None in Hxi. apply lookup_lt_Some in Hki. lia.
    + reflexivity.
Qed.

(** The inverse object of a bijection is a bijection, with the two maps
    exchanged. *)
Lemma Inverse_bijective {T} `{Transform T} (t : T) P Fs Js Gs :
  bijective t P Fs Js Gs ->
  bijective (inv t) P Gs
    (zip_with (fun (J G : R -> R) b => / J (G b)) Js Gs) Fs.
Proof.
  intros [[HJ HG] Hder Hinv Hcall Hinverse Hladj].
  split.
  - rewrite length_zip_with. lia.
  - intros i G J' F HGi HJ'i HFi.
    apply lookup_zip_with_Some in HJ'i as (J & G' & -> & HJi & HGi').
    assert (G' = G) as -> by congruence.
    destruct (Hder i F J G HFi HJi HGi) as [HdF HdG].
    split.
    + intros b. split; [apply HdG|].
      apply Rinv_neq_0_compat. apply HdF.
    + intros a. destruct (Hinv i F G HFi HGi a) as [HGF _].
      rewrite HGF, Rinv_inv. apply HdF.
  - intros i G F HGi HFi a.
    destruct (Hinv i F G HFi HGi a). auto.
  - intros s y ys HP Hy Hn. rewrite HG in Hn.
    apply (Hinverse s y ys HP Hy Hn).
  - intros s x xs HP Hx Hn. rewrite HG in Hn.
    apply (Hcall s x xs HP Hx Hn).
  - intros s y ys x HP Hy Hn Hx. rewrite HG in Hn.
    assert (Hlx : length (ap Gs ys) = length Fs).
    { unfold ap. rewrite length_zip_with. lia. }
    assert (Hyx : data s y = Some (ap Fs (ap Gs ys))).
    { rewrite Hy. f_equal. apply list_eq. intros i. rewrite !lookup_ap.
      destruct (Fs !! i) as [F|] eqn:HFi, (Gs !! i) as [G|] eqn:HGi,
        (ys !! i) as [b|] eqn:Hb; try reflexivity.
      all: try (destruct (Hinv i F G HFi HGi b) as [_ ->]; reflexivity).
      all: try (apply lookup_ge_None in HGi; apply lookup_lt_Some in HFi; lia).
      all: try (apply lookup_ge_None in HFi; apply lookup_lt_Some in Hb; lia).
      all: try (apply lookup_ge_None in HFi; apply lookup_lt_Some in HGi; lia).
    }
    destruct (Hladj s x (ap Gs ys) y HP Hx Hlx Hyx) as (l & Hl & Hd).
    cbn [log_abs_det_jacobian Inverse_Transform inverse_of].
    erewrite bind_run by exact Hl.
    unfold torch.neg. erewrite unary_run by exact Hd.
    eexists. split; [reflexivity|]. rewrite data_result. f_equal.
    pointwise.
    destruct (Js !! i) as [J|] eqn:HJi, (Gs !! i) as [G|] eqn:HGi,
      (ys !! i) as [b|] eqn:Hb; simpl; try reflexivity.
    f_equal. rewrite Rabs_inv.
    destruct (Fs !! i) as [F|] eqn:HFi.
    + destruct (Hder i F J G HFi HJi HGi) as [HdF _].
      rewrite ln_Rinv; [reflexivity|]. apply Rabs_pos_lt. apply HdF.
    + apply lookup_ge_None in HFi. apply lookup_lt_Some in HJi. lia.
Qed.

Lemma ap_inverse {T} `{Transform T} (t : T) P Fs Js Gs xs :
  bijective t P Fs Js Gs -> length xs = length Fs ->
  ap Gs (ap Fs xs) = xs /\ ap Fs (ap Gs xs) = xs.
Proof.
  intros [[_ HG] _ Hinv _ _ _] Hn.
  split; apply list_eq; intros i; rewrite !lookup_ap.
  - destruct (Gs !! i) as [G|] eqn:HGi, (Fs !! i) as [F|] eqn:HFi,
      (xs !! i) as [a|] eqn:Ha; try reflexivity.
    all: try (destruct (Hinv i F G HFi HGi a) as [-> _]; reflexivity).
    all: try (apply lookup_ge_None in HGi; apply lookup_lt_Some in HFi; lia).
    all: try (apply lookup_ge_None in HFi; apply lookup_lt_Some in Ha; lia).
    all: try (apply lookup_ge_None in HGi; apply lookup_lt_Some in Ha; lia).
  - destruct (Gs !! i) as [G|] eqn:HGi, (Fs !! i) as [F|] eqn:HFi,
      (xs !! i) as [a|] eqn:Ha; try reflexivity.
    all: try (destruct (Hinv i F G HFi HGi a) as [_ ->]; reflexivity).
    all: try (apply lookup_ge_None in HGi; apply lookup_lt_Some in HFi; lia).
    all: try (apply lookup_ge_None in HFi; apply lookup_lt_Some in Ha; lia).
    all: try (apply lookup_ge_None in HGi; apply lookup_lt_Some in Ha; lia).
    all: try (apply lookup_ge_None in HFi; apply lookup_lt_Some in HGi; lia).
Qed.

(** C2 (amended). Over the real numbers, an affine transformation object
    none of whose scale elements is zero, and its inverse object, are
    invertible mappings on every shape that location and scale broadcast
    to: the forward call computes l + k * x on each element, the inverse
    call the inverse map, each of the two undoes the other, and
    [log_abs_det_jacobian] returns for each element the logarithm of the
    absolute value of the derivative of the map; in particular
    [transform.inv(transform(x))] returns x.  The inverse object of every
    transformation object that is such a mapping is one as well. *)
Theorem AffineTransform_invertible s (t : AffineTransform.t) ls ks n :
  data s (AffineTransform.loc t) = Some ls ->
  data s (AffineTransform.scale t) = Some ks ->
  fits n ls -> fits n ks -> Forall (fun k => k <> 0) ks ->
  bijective t (params s)
    (zip_with affine (spread n ls) (spread n ks))
    (map (fun k _ => k) (spread n ks))
    (zip_with affine_inv (spread n ls) (spread n ks))
  /\ bijective (inv t) (params s)
       (zip_with affine_inv (spread n ls) (spread n ks))
       (map (fun k _ => / k) (spread n ks))
       (zip_with affine (spread n ls) (spread n ks))
  /\ (forall x xs,
        data s x = Some xs -> length xs = n ->
        exists y x' ladj,
          call t x s = Ok y s
          /\ data s y = Some (zip3 affine (spread n ls) (spread n ks) xs)
          /\ call (inv t) y s = Ok x' s
          /\ data s x' = Some xs
          /\ log_abs_det_jacobian t x y s = Ok ladj s
          /\ data s ladj = Some (map (fun k => ln (Rabs k)) (spread n ks)))
  /\ (forall T' (HT' : Transform T') (t' : T') Fs Js Gs,
        bijective t' (params s) Fs Js Gs ->
        bijective (inv t') (params s) Gs
          (zip_with (fun (J G : R -> R) b => / J (G b)) Js Gs) Fs).
Proof.
  intros Hl Hk Hfl Hfk Hk0.
  assert (Hb := AffineTransform_bijective s t ls ks n Hl Hk Hfl Hfk Hk0).
  assert (Hlen : length (zip_with affine (spread n ls) (spread n ks)) = n).
  { apply length_zip_spread; assumption. }
  split; [exact Hb|]. split; [|split].
  3:{ intros T' HT' t' Fs Js Gs Hb'. apply Inverse_bijective. exact Hb'. }
  - replace (map (fun k (_ : R) => / k) (spread n ks))
      with (zip_with (fun (J G : R -> R) b => / J (G b))
              (map (fun k (_ : R) => k) (spread n ks))
              (zip_with affine_inv (spread n ls) (spread n ks))).
    + apply Inverse_bijective. exact Hb.
    + apply list_eq. intros i.
      rewrite lookup_zip_with, !lookup_map, lookup_zip_with.
      destruct (spread n ks !! i) as [k|] eqn:Hki; simpl; [|reflexivity].
      destruct (spread n ls !! i) as [l|] eqn:Hli; simpl; [reflexivity|].
      apply lookup_ge_None in Hli. apply lookup_lt_Some in Hki.
      rewrite length_spread in Hli, Hki by assumption. lia.
  - intros x xs Hx Hn. rewrite <- Hlen in Hn.
    destruct (bijective_call _ _ _ _ _ Hb s x xs eq_refl Hx Hn)
      as (y & Hy & Hyd).
    destruct (bijective_inv _ _ _ _ _ Hb s y _ eq_refl Hyd)
      as (x' & Hx' & Hxd).
    { rewrite length_ap; auto. }
    destruct (bijective_ladj _ _ _ _ _ Hb s x xs y eq_refl Hx Hn Hyd)
      as (ladj & Hladj & Hld).
    exists y, x', ladj.
    split; [exact Hy|]. split.
    { rewrite Hyd. f_equal. pointwise.
      destruct (spread n ls !! i), (spread n ks !! i), (xs !! i);
        reflexivity. }
    split; [exact Hx'|]. split.
    { rewrite Hxd. f_equal.
      apply (proj1 (ap_inverse t _ _ _ _ xs Hb Hn)). }
    split; [exact Hladj|].
    rewrite Hld. f_equal. rewrite map_map. pointwise.
    destruct (spread n ks !! i) as [k|] eqn:Hki; simpl; [|reflexivity].
    destruct (xs !! i) as [a|] eqn:Ha; [reflexivity|].
    apply lookup_ge_None in Ha. apply lookup_lt_Some in Hki.
    rewrite length_spread in Hki by assumption. lia.
Qed.

Lemma AffineTransform_invertible_witness :
  bijective transform23 (params fresh)
    (zip_with affine (spread 2 [2]) (spread 2 [3]))
    (map (fun k _ => k) (spread 2 [3]))
    (zip_with affine_inv (spread 2 [2]) (spread 2 [3]))
  /\ bijective (inv transform23) (params fresh)
       (zip_with affine_inv (spread 2 [2]) (spread 2 [3]))
       (map (fun k _ => / k) (spread 2 [3]))
       (zip_with affine (spread 2 [2]) (spread 2 [3]))
  /\ (forall x xs,
        data fresh x = Some xs -> length xs = 2%nat ->
        exists y x' ladj,
          call transform23 x fresh = Ok y fresh
          /\ data fresh y = Some (zip3 affine (spread 2 [2]) (spread 2 [3]) xs)
          /\ call (inv transform23) y fresh = Ok x' fresh
          /\ data fresh x' = Some xs
          /\ log_abs_det_jacobian transform23 x y fresh = Ok ladj fresh
          /\ data fresh ladj
             = Some (map (fun k => ln (Rabs k)) (spread 2 [3])))
  /\ (forall T' (HT' : Transform T') (t' : T') Fs Js Gs,
        bijective t' (params fresh) Fs Js Gs ->
        bijective (inv t') (params fresh) Gs
          (zip_with (fun (J G : R -> R) b => / J (G b)) Js Gs) Fs).
Proof.
  apply (AffineTransform_invertible fresh transform23 [2] [3] 2).
  - reflexivity.
  - reflexivity.
  - left. reflexivity.
  - left. reflexivity.
  - constructor; [lra | constructor].
Defined.

(** C2, as stated, fails.  In the binary32 arithmetic of the program, the
    transformation of the tutorial, [AffineTransform(2.0, 3.0)], sends 0.1
    to a number that its inverse call sends to 13421771 * 2^-27, two units
    in the last place below 0.1.  And [AffineTransform(2.0, 0.0)], which the
    constructor accepts, sends both 1 and 5 to 2; its inverse call
    returns NaN at 2. *)
Lemma AffineTransform_round_trip_not_exact :
  float32.inverse float32.two float32.three
    (float32.call float32.two float32.three float32.tenth)
  = float32.finite 13421771 (-27)
  /\ float32.finite 13421771 (-27) <> float32.tenth
  /\ float32.call float32.two float32.zero float32.one = float32.two
  /\ float32.call float32.two float32.zero float32.five = float32.two
  /\ float32.inverse float32.two float32.zero float32.two = S754_nan
  /\ (exists y y',
        call transform20 (tensor [1]) fresh = Ok y fresh
        /\ call transform20 (tensor [5]) fresh = Ok y' fresh
        /\ data fresh y = Some [2] /\ data fresh y' = Some [2]).
Proof.
  split; [vm_compute; reflexivity|].
  split; [discriminate|].
  split; [vm_compute; reflexivity|].
  split; [vm_compute; reflexivity|].
  split; [vm_compute; reflexivity|].
  eexists _, _. split; [reflexivity|]. split; [reflexivity|].
  split; cbn; do 2 f_equal; lra.
Qed.

(** ** Normalizing flows *)

(** The whole of a flow's [sample] runs with gradients disabled: its value
    is attached to no graph, also when the location and the scale of the
    transformation are parameters. *)
Remark flow_sample_no_graph s
  (flow : NormalizingFlow.t AffineTransform.t Normal.t) l k mu sigma :
  data s (AffineTransform.loc (NormalizingFlow.transform flow)) = Some [l] ->
  data s (AffineTransform.scale (NormalizingFlow.transform flow)) = Some [k] ->
  data s (Normal.loc (NormalizingFlow.base flow)) = Some [mu] ->
  data s (Normal.scale (NormalizingFlow.base flow)) = Some [sigma] ->
  0 <= sigma ->
  exists x,
    sample flow s = Ok x (advance 1 s)
    /\ grad_fn x = None /\ requires_grad x = false.
Proof.
  intros Hl Hk Hmu Hsigma Hpos.
  set (s0 := State (params s) (grads s) (entropy s) (generator s) false
               (constructed s)).
  destruct (Normal_sample_run s0 (NormalizingFlow.base flow) mu sigma
              Hmu Hsigma Hpos) as (z & Hz & Hzd & _).
  destruct (AffineTransform_inverse_run (advance 1 s0)
              (NormalizingFlow.transform flow) l k z _ Hl Hk Hzd)
    as (dz & Hinv).
  eexists. split; [|split].
  - cbn [sample NormalizingFlow_Distribution]. unfold NormalizingFlow.sample.
    apply (no_grad_run _ s _ (advance 1 s0)).
    erewrite bind_run by exact Hz. exact Hinv.
  - apply grad_fn_result_no_grad. reflexivity.
  - unfold requires_grad. rewrite grad_fn_result_no_grad by reflexivity.
    reflexivity.
Qed.

(** The value of a flow's sample follows the change of variables formula
    when the value of the base's sample follows the base's log-density. *)
Lemma flow_follows (F J G p q : R -> R) :
  (forall a, derivable_pt_lim F a (J a) /\ J a <> 0) ->
  (forall b, derivable_pt_lim G b (/ J (G b))) ->
  (forall a, G (F a) = a /\ F (G a) = a) ->
  follows p q ->
  follows (fun x => p (F x) + ln (Rabs (J x))) (fun e => G (q e)).
Proof.
  intros HF HG Hinv (q' & Hq).
  exists (fun e => / J (G (q e)) * q' e). intros e.
  destruct (Hq e) as (Hdq & Hq0 & Hlaw).
  destruct (HF (G (q e))) as [_ HJ0].
  split; [|split].
  - apply (derivable_pt_lim_comp q G); [exact Hdq | apply HG].
  - apply Rmult_integral_contrapositive_currified; [|exact Hq0].
    apply Rinv_neq_0_compat. exact HJ0.
  - destruct (Hinv (q e)) as [_ ->].
    rewrite Rabs_mult, Rabs_inv, ln_mult, ln_Rinv.
    + lra.
    + apply Rabs_pos_lt. exact HJ0.
    + apply Rinv_0_lt_compat, Rabs_pos_lt. exact HJ0.
    + apply Rabs_pos_lt. exact Hq0.
Qed.

(** C1. For every normalizing flow of a base distribution with
    log-densities p_i and a bijective transformation with maps F_i, and
    every point x of their shape: [log_prob] of the flow returns, at each
    element, p_i(F_i(x_i)) + log |J_i(x_i)|, where J_i is the derivative
    of F_i; the density of the flow is thus p(Z = f(x)) |det df(x)/dx|. *)
Theorem flow_log_prob_change_of_variables {T D} `{Transform T}
  `{Distribution D} (flow : NormalizingFlow.t T D) P Fs Js Gs ps :
  bijective (NormalizingFlow.transform flow) P Fs Js Gs ->
  log_density (NormalizingFlow.base flow) P ps ->
  length ps = length Fs ->
  log_density flow P (change_of_variables Fs Js ps)
  /\ (forall i F J p,
        Fs !! i = Some F -> Js !! i = Some J -> ps !! i = Some p ->
        change_of_variables Fs Js ps !! i
        = Some (fun x => p (F x) + ln (Rabs (J x)))
        /\ forall x,
             derivable_pt_lim F x (J x)
             /\ exp (p (F x) + ln (Rabs (J x))) = exp (p (F x)) * Rabs (J x)).
Proof.
  intros Hb Hp Hlen.
  split; [apply (NormalizingFlow_log_density flow P Fs Js Gs ps Hb Hp Hlen)|].
  destruct Hb as [[HJ HG] Hder _ Hcall _ Hladj].
  intros i F J p HF HJi Hpi. split.
  { unfold change_of_variables. rewrite lookup_zip3, HF, HJi, Hpi.
    reflexivity. }
  intros x.
  destruct (lookup_lt_is_Some_2 Gs i) as [G HGi].
  { apply lookup_lt_Some in HF. lia. }
  destruct (Hder i F J G HF HJi HGi) as [HdF _].
  destruct (HdF x) as [Hd HJ0].
  split; [exact Hd|].
  rewrite exp_plus, exp_ln; [reflexivity|]. apply Rabs_pos_lt. exact HJ0.
Qed.

(** C3. A normalizing flow of a bijective transformation and a base
    distribution is a distribution: its [sample] draws z from the base and
    returns the value of the inverse maps at z, which the forward maps
    send back to z; its [log_prob] computes log-densities; the value of
    [sample] follows these when z follows the log-densities of the base;
    and the flow can be the base of another flow. *)
Theorem flow_sample_inverts_base_sample {T D} `{Transform T}
  `{Distribution D} (flow : NormalizingFlow.t T D) P Fs Js Gs qs :
  bijective (NormalizingFlow.transform flow) P Fs Js Gs ->
  sampler (NormalizingFlow.base flow) P qs ->
  length qs = length Fs ->
  sampler flow P (inverse_images Gs qs)
  /\ (forall i F G q,
        Fs !! i = Some F -> Gs !! i = Some G -> qs !! i = Some q ->
        inverse_images Gs qs !! i = Some (fun e => G (q e))
        /\ forall e, F (G (q e)) = q e)
  /\ (forall ps,
        log_density (NormalizingFlow.base flow) P ps ->
        length ps = length Fs ->
        log_density flow P (change_of_variables Fs Js ps))
  /\ (forall ps,
        Forall2 follows ps qs ->
        Forall2 follows (change_of_variables Fs Js ps)
          (inverse_images Gs qs))
  /\ (forall T' (HT' : Transform T') (t' : T') Fs' Js' Gs',
        bijective t' P Fs' Js' Gs' -> length Fs' = length Fs ->
        sampler {| NormalizingFlow.transform := t';
                   NormalizingFlow.base := flow |} P
          (inverse_images Gs' (inverse_images Gs qs))).
Proof.
  intros Hb Hq Hlen.
  assert (Hs := NormalizingFlow_sampler flow P Fs Js Gs qs Hb Hq Hlen).
  assert (Hd := fun ps => NormalizingFlow_log_density flow P Fs Js Gs ps Hb).
  destruct Hb as [[HJ HG] Hder Hinv _ _ _].
  split; [exact Hs|]. split; [|split; [exact Hd|split]].
  - intros i F G q HF HGi Hqi. split.
    + unfold inverse_images. rewrite lookup_zip_with, HGi, Hqi. reflexivity.
    + intros e. apply (Hinv i F G HF HGi).
  - intros ps Hps. unfold change_of_variables, inverse_images.
    assert (Hlp : length ps = length qs) by (eapply Forall2_length; eauto).
    apply Forall2_same_length_lookup. split.
    + rewrite length_zip_with. erewrite length_zip3; eauto; lia.
    + intros i p' q' Hp' Hq'.
      rewrite lookup_zip3 in Hp'.
      destruct (Fs !! i) as [F|] eqn:HF; [|discriminate].
      destruct (Js !! i) as [J|] eqn:HJi; [|discriminate].
      destruct (ps !! i) as [p|] eqn:Hpi; [|discriminate].
      injection Hp' as <-.
      apply lookup_zip_with_Some in Hq' as (G & q & -> & HGi & Hqi).
      destruct (Hder i F J G HF HJi HGi) as [HdF HdG].
      apply flow_follows;
        [exact HdF | exact HdG | apply (Hinv i F G HF HGi) |].
      eapply Forall2_lookup_lr; [exact Hps | exact Hpi | exact Hqi].
  - intros T' HT' t' Fs' Js' Gs' Hb' Hlen'.
    apply (NormalizingFlow_sampler
             {| NormalizingFlow.transform := t';
                NormalizingFlow.base := flow |} P Fs' Js' Gs').
    + exact Hb'.
    + exact Hs.
    + unfold inverse_images. rewrite length_zip_with. lia.
Qed.

Lemma flow_log_prob_change_of_variables_witness :
  log_density flow23 (params fresh)
    (change_of_variables
       (zip_with affine (spread 2 [2]) (spread 2 [3]))
       (map (fun k _ => k) (spread 2 [3]))
       (zip_with log_normal (spread 2 [0]) (spread 2 [1])))
  /\ (forall i F J p,
        zip_with affine (spread 2 [2]) (spread 2 [3]) !! i = Some F ->
        map (fun k (_ : R) => k) (spread 2 [3]) !! i = Some J ->
        zip_with log_normal (spread 2 [0]) (spread 2 [1]) !! i = Some p ->
        change_of_variables
          (zip_with affine (spread 2 [2]) (spread 2 [3]))
          (map (fun k _ => k) (spread 2 [3]))
          (zip_with log_normal (spread 2 [0]) (spread 2 [1])) !! i
        = Some (fun x => p (F x) + ln (Rabs (J x)))
        /\ forall x,
             derivable_pt_lim F x (J x)
             /\ exp (p (F x) + ln (Rabs (J x))) = exp (p (F x)) * Rabs (J x)).
Proof.
  apply (flow_log_prob_change_of_variables flow23 (params fresh)
           (zip_with affine (spread 2 [2]) (spread 2 [3]))
           (map (fun k _ => k) (spread 2 [3]))
           (zip_with affine_inv (spread 2 [2]) (spread 2 [3]))
           (zip_with log_normal (spread 2 [0]) (spread 2 [1]))).
  - apply (AffineTransform_bijective fresh transform23 [2] [3] 2).
    + reflexivity.
    + reflexivity.
    + left. reflexivity.
    + left. reflexivity.
    + constructor; [lra | constructor].
  - apply (Normal_log_density fresh standard_normal [0] [1] 2).
    + reflexivity.
    + reflexivity.
    + left. reflexivity.
    + left. reflexivity.
    + constructor; [lra | constructor].
  - reflexivity.
Defined.

Lemma flow_sample_inverts_base_sample_witness :
  sampler flow23 (params fresh)
    (inverse_images
       (zip_with affine_inv (spread 1 [2]) (spread 1 [3]))
       (zip_with affine (spread 1 [0]) (spread 1 [1])))
  /\ (forall i F G q,
        zip_with affine (spread 1 [2]) (spread 1 [3]) !! i = Some F ->
        zip_with affine_inv (spread 1 [2]) (spread 1 [3]) !! i = Some G ->
        zip_with affine (spread 1 [0]) (spread 1 [1]) !! i = Some q ->
        inverse_images
          (zip_with affine_inv (spread 1 [2]) (spread 1 [3]))
          (zip_with affine (spread 1 [0]) (spread 1 [1])) !! i
        = Some (fun e => G (q e))
        /\ forall e, F (G (q e)) = q e)
  /\ (forall ps,
        log_density (NormalizingFlow.base flow23) (params fresh) ps ->
        length ps = length (zip_with affine (spread 1 [2]) (spread 1 [3])) ->
        log_density flow23 (params fresh)
          (change_of_variables
             (zip_with affine (spread 1 [2]) (spread 1 [3]))
             (map (fun k _ => k) (spread 1 [3])) ps))
  /\ (forall ps,
        Forall2 follows ps (zip_with affine (spread 1 [0]) (spread 1 [1])) ->
        Forall2 follows
          (change_of_variables
             (zip_with affine (spread 1 [2]) (spread 1 [3]))
             (map (fun k _ => k) (spread 1 [3])) ps)
          (inverse_images
             (zip_with affine_inv (spread 1 [2]) (spread 1 [3]))
             (zip_with affine (spread 1 [0]) (spread 1 [1]))))
  /\ (forall T' (HT' : Transform T') (t' : T') Fs' Js' Gs',
        bijective t' (params fresh) Fs' Js' Gs' ->
        length Fs'
        = length (zip_with affine (spread 1 [2]) (spread 1 [3])) ->
        sampler {| NormalizingFlow.transform := t';
                   NormalizingFlow.base := flow23 |} (params fresh)
          (inverse_images Gs'
             (inverse_images
                (zip_with affine_inv (spread 1 [2]) (spread 1 [3]))
                (zip_with affine (spread 1 [0]) (spread 1 [1]))))).
Proof.
  apply (flow_sample_inverts_base_sample flow23 (params fresh)
           (zip_with affine (spread 1 [2]) (spread 1 [3]))
           (map (fun k _ => k) (spread 1 [3]))
           (zip_with affine_inv (spread 1 [2]) (spread 1 [3]))
           (zip_with affine (spread 1 [0]) (spread 1 [1]))).
  - apply (AffineTransform_bijective fresh transform23 [2] [3] 1).
    + reflexivity.
    + reflexivity.
    + left. reflexivity.
    + left. reflexivity.
    + constructor; [lra | constructor].
  - apply (Normal_sampler fresh standard_normal [0] [1] [(0, 1)]).
    + reflexivity.
    + reflexivity.
    + reflexivity.
    + constructor; [lra | constructor].
  - reflexivity.
Defined.

(** The flow of the tutorial, an affine transformation of a Normal
    distribution, has the density of a Normal distribution again. *)
Lemma affine_flow_is_normal mu sigma l k x :
  0 < sigma -> k <> 0 ->
  log_normal mu sigma (affine l k x) + ln (Rabs k)
  = log_normal ((mu - l) / k) (sigma / Rabs k) x.
Proof.
  intros Hsigma Hk. unfold log_normal, affine.
  assert (Hs : 0 < Rabs k) by (apply Rabs_pos_lt; exact Hk).
  assert (Hsq : Rabs k * Rabs k = k * k).
  { unfold Rabs. destruct (Rcase_abs k); ring. }
  assert (Hroot : 0 < sqrt (2 * PI)).
  { apply sqrt_lt_R0. pose proof PI_RGT_0. lra. }
  assert (Hln : ln (sigma / Rabs k * sqrt (2 * PI))
                = ln (sigma * sqrt (2 * PI)) - ln (Rabs k)).
  { replace (sigma / Rabs k * sqrt (2 * PI))
      with (sigma * sqrt (2 * PI) * / Rabs k) by (field; lra).
    rewrite ln_mult, ln_Rinv; try assumption.
    - lra.
    - apply Rmult_lt_0_compat; assumption.
    - apply Rinv_0_lt_compat. exact Hs. }
  rewrite Hln.
  replace ((sigma / Rabs k) ^ 2) with (sigma ^ 2 / (k * k)).
  2:{ rewrite <- Hsq. field. lra. }
  field. repeat split; lra.
Qed.

(** ** Unconditional modules *)

Lemma register_run args s :
  Unconditional.register args s
  = Ok (seq (length (params s)) (length args))
       (State (params s ++ args) (grads s ++ replicate (length args) None)
          (entropy s) (generator s) (grad_enabled s) (constructed s)).
Proof.
  revert s. induction args as [|v args IH]; intros s.
  - simpl. unfold ret. rewrite !app_nil_r. destruct s; reflexivity.
  - cbn [Unconditional.register]. unfold bind at 1. unfold nn.Parameter_.
    unfold bind at 1. rewrite IH. unfold ret.
    cbn [params grads entropy generator grad_enabled constructed length seq
         replicate].
    rewrite <- !app_assoc, length_app. cbn [app length].
    rewrite Nat.add_1_r. reflexivity.
Qed.

(** The constructor of an unconditional module registers the tensors and
    does not call [meta]. *)
Lemma Unconditional_init_run {O} (meta : list Tensor -> M O) args buffer s :
  exists m s1,
    Unconditional.init meta args buffer s = Ok m s1
    /\ Unconditional.meta m = meta
    /\ Unconditional.tensors m
       = (if buffer then map tensor args
          else map parameter (seq (length (params s)) (length args)))
    /\ Unconditional.parameters m
       = (if buffer then [] else seq (length (params s)) (length args))
    /\ params s1 = (if buffer then params s else params s ++ args)
    /\ constructed s1 = constructed s.
Proof.
  unfold Unconditional.init. destruct buffer.
  - eexists _, _. unfold ret. repeat split; reflexivity.
  - unfold bind. rewrite register_run. unfold ret.
    eexists _, _. repeat split; reflexivity.
Qed.

Lemma Unconditional_affine_run ls ks buffer s :
  exists m s1,
    Unconditional.init AffineTransform_meta [ls; ks] buffer s = Ok m s1
    /\ constructed s1 = constructed s
    /\ exists t,
         (forall c, LazyTransform.forward m c s1 = Ok t s1)
         /\ data s1 (AffineTransform.loc t) = Some ls
         /\ data s1 (AffineTransform.scale t) = Some ks.
Proof.
  destruct (Unconditional_init_run AffineTransform_meta [ls; ks] buffer s)
    as (m & s1 & Hinit & Hmeta & Htensors & _ & Hparams & Hc).
  exists m, s1. split; [exact Hinit|]. split; [exact Hc|].
  cbn [LazyTransform.forward Unconditional_LazyTransform].
  unfold Unconditional.forward. rewrite Hmeta, Htensors.
  destruct buffer; cbn [map seq length AffineTransform_meta]; unfold ret.
  - eexists. split; [reflexivity|]. split; reflexivity.
  - eexists. split; [reflexivity|].
    unfold data. cbn [AffineTransform.init AffineTransform.loc
                      AffineTransform.scale parameter storage_of].
    rewrite Hparams. split.
    + rewrite <- (Nat.add_0_r (length (params s))).
      rewrite lookup_app_plus. reflexivity.
    + rewrite <- (Nat.add_1_r (length (params s))).
      rewrite lookup_app_plus. reflexivity.
Qed.

(** The first transformation of the custom flow of the tutorial is what
    the constructor returns. *)
Example preprocessing_init :
  Unconditional.init AffineTransform_meta [[1 / 512]; [1 / 256]] true fresh
  = Ok preprocessing fresh.
Proof. reflexivity. Qed.

(** ** Lazy modules *)

(** C4 (amended). A lazy module defers the construction of the object it
    stands for until its forward pass is called.  [GaussianModel(context)]
    builds no distribution; its forward pass, given a context, returns a
    Normal distribution whose location and scale are computed from that
    context by the hyper-network, and [sample] and [log_prob] of the
    returned instance return values.  [Unconditional(meta, *args)]
    registers the tensors without calling the constructor [meta]; its
    forward pass calls [meta] on the registered tensors, whatever the
    context; around [AffineTransform] it returns, for every context, the
    same transformation, of the registered location and scale, whose
    forward call, inverse call and [log_abs_det_jacobian] return
    values. *)
Theorem lazy_module_defers_construction :
  (forall context s, exists m s1,
      GaussianModel.init context s = Ok m s1
      /\ constructed s1 = constructed s
      /\ well_formed context s1 m)
  /\ (forall context s m c v,
        well_formed context s m -> data s c = Some v -> length v = context ->
        exists d s1 mu log_sigma,
          forward m c s = Ok d s1
          /\ constructed s1 = S (constructed s)
          /\ hyper_map s m v = [mu; log_sigma]
          /\ data s1 (Normal.loc d) = Some [mu]
          /\ data s1 (Normal.scale d) = Some [exp log_sigma]
          /\ (exists z s2, sample d s1 = Ok z s2)
          /\ (forall x xs, data s1 x = Some xs ->
                exists lp,
                  log_prob d x s1 = Ok lp s1
                  /\ data s1 lp
                     = Some (map (log_normal mu (exp log_sigma)) xs)))
  /\ (forall O (meta : list Tensor -> M O) args buffer s, exists m s1,
        Unconditional.init meta args buffer s = Ok m s1
        /\ constructed s1 = constructed s
        /\ forall c s2,
             Unconditional.forward m c s2
             = meta (Unconditional.tensors m) s2)
  /\ (forall ls ks buffer s, exists m s1,
        Unconditional.init AffineTransform_meta [ls; ks] buffer s = Ok m s1
        /\ exists t,
             (forall c, LazyTransform.forward m c s1 = Ok t s1)
             /\ data s1 (AffineTransform.loc t) = Some ls
             /\ data s1 (AffineTransform.scale t) = Some ks
             /\ (forall x xs,
                   data s1 x = Some xs ->
                   fits (length xs) ls -> fits (length xs) ks ->
                   exists y x' ladj,
                     call t x s1 = Ok y s1
                     /\ data s1 y
                        = Some (zip3 affine (spread (length xs) ls)
                                  (spread (length xs) ks) xs)
                     /\ inverse t y s1 = Ok x' s1
                     /\ log_abs_det_jacobian t x y s1 = Ok ladj s1
                     /\ data s1 ladj
                        = Some (map (fun k => ln (Rabs k))
                                  (spread (length xs) ks)))).
Proof.
  split; [|split; [|split]].
  - intros context s.
    destruct (init_run context s) as (m & s1 & Hinit & Hwf & Hc & _).
    exists m, s1. auto.
  - intros context s m c v Hwf Hc Hv.
    destruct (forward_run context s m c v Hwf Hc Hv)
      as (l0 & l2 & mu & log_sigma & _ & Hmap & Hrun).
    eexists _, _, mu, log_sigma.
    split; [exact Hrun|]. split; [reflexivity|]. split; [exact Hmap|].
    split; [reflexivity|]. split; [reflexivity|]. split.
    + edestruct (Normal_sample_run (built s)) as (z & Hz & _);
        [ | | | eexists _, _; exact Hz ].
      * reflexivity.
      * reflexivity.
      * left. apply exp_pos.
    + intros x xs Hx. apply Normal_log_prob_values; auto.
      apply exp_pos.
  - intros O meta args buffer s.
    destruct (Unconditional_init_run meta args buffer s)
      as (m & s1 & Hinit & Hmeta & _ & _ & _ & Hc).
    exists m, s1. split; [exact Hinit|]. split; [exact Hc|].
    intros c s2. unfold Unconditional.forward. rewrite Hmeta. reflexivity.
  - intros ls ks buffer s.
    destruct (Unconditional_affine_run ls ks buffer s)
      as (m & s1 & Hinit & _ & t & Hfwd & Hl & Hk).
    exists m, s1. split; [exact Hinit|]. exists t.
    split; [exact Hfwd|]. split; [exact Hl|]. split; [exact Hk|].
    intros x xs Hx Hfl Hfk.
    destruct (AffineTransform_call_values s1 t ls ks x xs Hl Hk Hx Hfl Hfk)
      as (y & Hy & Hyd).
    assert (Hlen : length (zip3 affine (spread (length xs) ls)
                             (spread (length xs) ks) xs) = length xs).
    { apply length_zip3; auto using length_spread. }
    destruct (AffineTransform_inverse_values s1 t ls ks y _ Hl Hk Hyd)
      as (x' & Hx' & _); rewrite ?Hlen; auto.
    destruct (AffineTransform_ladj_values s1 t ks x xs y Hk Hx Hfk)
      as (ladj & Hladj & Hld).
    exists y, x', ladj. auto 10.
Qed.

Lemma lazy_module_defers_construction_witness :
  exists d s1 mu log_sigma,
    forward model8 (tensor (repeat 0 8)) state8 = Ok d s1
    /\ constructed s1 = S (constructed state8)
    /\ hyper_map state8 model8 (repeat 0 8) = [mu; log_sigma]
    /\ data s1 (Normal.loc d) = Some [mu]
    /\ data s1 (Normal.scale d) = Some [exp log_sigma]
    /\ (exists z s2, sample d s1 = Ok z s2)
    /\ (forall x xs, data s1 x = Some xs ->
          exists lp,
            log_prob d x s1 = Ok lp s1
            /\ data s1 lp = Some (map (log_normal mu (exp log_sigma)) xs)).
Proof.
  apply (proj1 (proj2 lazy_module_defers_construction) 8%nat state8 model8
           (tensor (repeat 0 8)) (repeat 0 8)).
  - exact model8_well_formed.
  - reflexivity.
  - reflexivity.
Defined.

(** C4, as stated, fails for the unconditional module of the tutorial's
    custom flow: the transformation that its forward pass returns is the
    same for the contexts 0 and 255 and for every other context; its
    location and scale are the registered tensors and are not computed
    from the context. *)
Lemma Unconditional_ignores_context :
  exists t,
    LazyTransform.forward preprocessing (tensor [0]) fresh = Ok t fresh
    /\ LazyTransform.forward preprocessing (tensor [255]) fresh = Ok t fresh
    /\ (forall c, LazyTransform.forward preprocessing c fresh = Ok t fresh)
    /\ data fresh (AffineTransform.loc t) = Some [1 / 512]
    /\ data fresh (AffineTransform.scale t) = Some [1 / 256].
Proof. eexists. repeat split; reflexivity. Qed.

(** ** Underflow of the scale *)

Lemma exp_ge_pow2 n : 2 ^ n <= exp (INR n).
Proof.
  induction n as [|n IH].
  - simpl. rewrite exp_0. lra.
  - rewrite S_INR, exp_plus. simpl pow.
    assert (H1 : 2 <= exp 1).
    { pose proof (exp_ineq1 1). lra. }
    assert (0 < 2 ^ n) by (apply pow_lt; lra).
    rewrite (Rmult_comm 2). apply Rmult_le_compat; lra.
Qed.

Lemma exp_minus_512 : exp (-512) < / 2 ^ 150.
Proof.
  assert (H : 2 ^ 512 <= exp 512).
  { replace (exp 512) with (exp (INR 512)).
    - apply exp_ge_pow2.
    - rewrite INR_IZR_INZ. reflexivity. }
  assert (Hlt : 2 ^ 150 < 2 ^ 512).
  { apply Rlt_pow; [lra | lia]. }
  replace (-512) with (Ropp 512) by lra.
  rewrite exp_Ropp.
  apply Rinv_lt_contravar.
  - apply Rmult_lt_0_compat; [apply pow_lt; lra | apply exp_pos].
  - lra.
Qed.

Lemma hyper_map_underflow :
  hyper_map state_underflow model8 (repeat 1 8) = [0; -512].
Proof.
  unfold hyper_map, model8, state_underflow. cbn -[Rmax Rplus Rmult].
  match goal with |- context [Rmax 0 ?e] => set (h := e) end.
  assert (Hh : h = 8) by (unfold h; lra).
  rewrite Hh. rewrite (Rmax_right 0 8) by lra.
  f_equal; [lra|]. f_equal. lra.
Qed.

Lemma state_underflow_well_formed : well_formed 8 state_underflow model8.
Proof. unfold well_formed, Linear_ok; simpl. repeat split; reflexivity. Qed.

(** C9, at a failing input.  With the parameter values of
    [state_underflow], the forward pass of [GaussianModel(8)] at the
    context of ones computes log sigma = -512 and returns a Normal
    distribution of scale exp(-512).  This number is below 2^-150, half the
    least positive binary32 number: in the arithmetic of the program the
    scale is 0.0, and the constructor, which validates nothing, returns
    the distribution. *)
Theorem GaussianModel_scale_underflows :
  exists d,
    forward model8 (tensor (repeat 1 8)) state_underflow
    = Ok d (built state_underflow)
    /\ hyper_map state_underflow model8 (repeat 1 8) = [0; -512]
    /\ data (built state_underflow) (Normal.scale d) = Some [exp (-512)]
    /\ exp (-512) < / 2 ^ 150.
Proof.
  destruct (forward_run 8 state_underflow model8 (tensor (repeat 1 8))
              (repeat 1 8) state_underflow_well_formed eq_refl eq_refl)
    as (l0 & l2 & mu & log_sigma & _ & Hmap & Hrun).
  rewrite hyper_map_underflow in Hmap. injection Hmap as <- <-.
  eexists. split; [exact Hrun|]. split; [apply hyper_map_underflow|].
  split; [reflexivity | apply exp_minus_512].
Qed.

(** ** The training loop *)

Lemma same_shapes_lookup s s' p v :
  same_shapes s s' -> params s !! p = Some v ->
  exists v', params s' !! p = Some v' /\ length v' = length v.
Proof.
  unfold same_shapes. intros Hsh Hp.
  assert (Hl : map length (params s') !! p = Some (length v)).
  { rewrite <- Hsh. change map with (@fmap list _). rewrite list_lookup_fmap, Hp.
    reflexivity. }
  change map with (@fmap list _) in Hl. rewrite list_lookup_fmap in Hl.
  destruct (params s' !! p) as [v'|]; [|discriminate].
  exists v'. split; [reflexivity|]. simpl in Hl. congruence.
Qed.

Lemma Linear_ok_shapes s s' l :
  same_shapes s s' -> Linear_ok s l -> Linear_ok s' l.
Proof.
  unfold Linear_ok. intros Hsh Hok.
  destruct (params s !! nn.weight l) as [w|] eqn:Hw; [|tauto].
  destruct (params s !! nn.bias l) as [b|] eqn:Hb; [|tauto].
  destruct (same_shapes_lookup s s' _ _ Hsh Hw) as (w' & -> & Hw').
  destruct (same_shapes_lookup s s' _ _ Hsh Hb) as (b' & -> & Hb').
  destruct Hok. split; congruence.
Qed.

Lemma well_formed_shapes context s s' m :
  same_shapes s s' -> well_formed context s m -> well_formed context s' m.
Proof.
  unfold well_formed. intros Hsh Hwf.
  destruct (GaussianModel.hyper m) as [|[l0|] [|[|] [|[l2|] [|? ?]]]];
    try tauto.
  destruct Hwf as (? & ? & ? & ? & Hok0 & Hok2).
  repeat split; try assumption; eapply Linear_ok_shapes; eauto.
Qed.

Lemma well_formed_parameters context s m p :
  well_formed context s m -> In p (GaussianModel.parameters m) ->
  is_Some (params s !! p).
Proof.
  unfold well_formed, GaussianModel.parameters. intros Hwf Hp.
  destruct (GaussianModel.hyper m) as [|[l0|] [|[|] [|[l2|] [|? ?]]]];
    try tauto.
  destruct Hwf as (_ & _ & _ & _ & Hok0 & Hok2).
  unfold Linear_ok in *.
  destruct (params s !! nn.weight l0) eqn:?; [|tauto].
  destruct (params s !! nn.bias l0) eqn:?; [|tauto].
  destruct (params s !! nn.weight l2) eqn:?; [|tauto].
  destruct (params s !! nn.bias l2) eqn:?; [|tauto].
  simpl in Hp. destruct Hp as [<-|[<-|[<-|[<-|[]]]]]; eauto.
Qed.

Lemma prod_abs_nonneg (z : list R) : 0 <= foldr Rmult 1 (map Rabs z).
Proof.
  induction z as [|a z IH]; simpl; [lra|].
  apply Rmult_le_pos; [apply Rabs_pos | exact IH].
Qed.

Lemma edge_result_is_Some s f inputs v a :
  grad_enabled s = true -> In a inputs -> is_Some (edge a) ->
  is_Some (edge (result s f inputs v)).
Proof.
  intros Hs Ha He. rewrite edge_result.
  erewrite grad_fn_result by eassumption. eauto.
Qed.

Lemma normal_run s mean std m d :
  data s mean = Some [m] -> data s std = Some [d] -> 0 <= d ->
  torch.normal mean std s
  = Ok (result (advance 1 s) NormalBackward [mean; std]
          [m + d * entropy s (generator s)]) (advance 1 s).
Proof.
  intros Hm Hd Hpos. unfold torch.normal.
  rewrite Hm, Hd, broadcast_same by reflexivity.
  rewrite decide_True by (constructor; [exact Hpos | constructor]).
  reflexivity.
Qed.

Lemma length_foldl_insert {A} (x : A) ps (g : list A) :
  length (foldl (fun g p => <[p := x]> g) g ps) = length g.
Proof.
  revert g. induction ps as [|p ps IH]; intros g; simpl; [reflexivity|].
  rewrite IH. apply length_insert.
Qed.

Section TrainingRuns.

Variable autograd : node -> addr -> list R.
Variable moments : Type.
Variable adam : moments -> addr -> list R -> list R -> list R * moments.

(** The update rule works element by element. *)
Hypothesis adam_shape :
  forall st p v g, length (adam st p v g).1 = length v.

Lemma length_accumulate n g p :
  length (accumulate autograd n g p) = length g.
Proof.
  unfold accumulate. destruct (g !! p) as [[old|]|]; rewrite ?length_insert;
    reflexivity.
Qed.

Lemma length_foldl_accumulate n ps g :
  length (foldl (accumulate autograd n) g ps) = length g.
Proof.
  revert g. induction ps as [|p ps IH]; intros g; simpl; [reflexivity|].
  rewrite IH. apply length_accumulate.
Qed.

Lemma updates_run ps st s :
  (forall p, In p ps -> is_Some (params s !! p)) ->
  length (grads s) = length (params s) ->
  exists st' s',
    updates adam ps st s = Ok st' s'
    /\ same_shapes s s' /\ grads s' = grads s
    /\ entropy s' = entropy s /\ generator s' = generator s
    /\ grad_enabled s' = grad_enabled s /\ constructed s' = constructed s.
Proof.
  revert st s. induction ps as [|p ps IH]; intros st s Hps Hlen; simpl.
  - exists st, s. unfold ret, same_shapes. auto 10.
  - destruct (Hps p (or_introl eq_refl)) as [v Hv].
    assert (Hg : is_Some (grads s !! p)).
    { apply lookup_lt_is_Some. rewrite Hlen. eapply lookup_lt_Some; eauto. }
    destruct Hg as [g Hg].
    assert (Hup : exists st1 s1,
               update adam p st s = Ok st1 s1
               /\ same_shapes s s1 /\ grads s1 = grads s
               /\ entropy s1 = entropy s /\ generator s1 = generator s
               /\ grad_enabled s1 = grad_enabled s
               /\ constructed s1 = constructed s).
    { unfold update. rewrite Hv, Hg. destruct g as [g|].
      - pose proof (adam_shape st p v g) as Hsh.
        destruct (adam st p v g) as [v' st1]. simpl in Hsh.
        rewrite decide_True by exact Hsh.
        eexists _, _. split; [reflexivity|]. split; [|auto 10].
        unfold same_shapes; simpl.
        change map with (@fmap list _). rewrite list_fmap_insert, Hsh.
        symmetry. apply list_insert_id.
        rewrite list_lookup_fmap, Hv. reflexivity.
      - exists st, s. unfold same_shapes. auto 10. }
    destruct Hup as (st1 & s1 & Hup & Hsh1 & Hg1 & He1 & Hn1 & Hge1 & Hc1).
    destruct (IH st1 s1) as (st' & s' & Hrun & Hsh & Hg' & He & Hn & Hge & Hc).
    + intros q Hq. destruct (Hps q (or_intror Hq)) as [w Hw].
      destruct (same_shapes_lookup s s1 q w Hsh1 Hw) as (w' & Hw' & _). eauto.
    + rewrite Hg1, Hlen. unfold same_shapes in Hsh1.
      rewrite <- (length_map length (params s)), Hsh1, length_map. reflexivity.
    + exists st', s'. unfold bind. rewrite Hup. split; [exact Hrun|].
      unfold same_shapes in *. repeat split; congruence.
Qed.

Lemma iteration_run s m opt :
  well_formed 8 s m -> grad_enabled s = true ->
  length (grads s) = length (params s) ->
  param_groups opt = GaussianModel.parameters m ->
  exists opt' s',
    iteration autograd adam m opt s = Ok opt' s'
    /\ well_formed 8 s' m /\ grad_enabled s' = true
    /\ length (grads s') = length (params s')
    /\ param_groups opt' = GaussianModel.parameters m
    /\ constructed s' = S (constructed s).
Proof.
  intros Hwf Hs Hlen Hopt. unfold iteration.
  erewrite bind_run by reflexivity.
  erewrite bind_run by reflexivity.
  erewrite bind_run by reflexivity.
  erewrite bind_run by reflexivity.
  erewrite bind_run
    by (eapply normal_run; [reflexivity | reflexivity | apply prod_abs_nonneg]).
  set (z := map (entropy s) (seq (generator s) 8)).
  set (s2 := advance 1 (advance 8 s)).
  set (x := result s2 NormalBackward _ _).
  assert (Hwf2 : well_formed 8 s2 m).
  { eapply well_formed_shapes; [|exact Hwf]. reflexivity. }
  destruct (forward_run 8 s2 m (tensor z) z Hwf2 eq_refl eq_refl)
    as (l0 & l2 & mu & log_sigma & Hhyper & _ & Hrun).
  erewrite bind_run by exact Hrun.
  set (d := {| Normal.loc := mu_t s2 l0 l2 (tensor z) z mu;
               Normal.scale := sigma_t s2 l0 l2 (tensor z) z log_sigma;
               Normal.serial := constructed s2 |}).
  destruct (Normal_log_prob_run (built s2) d x mu (exp log_sigma) _
              eq_refl eq_refl eq_refl) as [q Hlp].
  erewrite bind_run by exact Hlp.
  unfold torch.neg. erewrite bind_run by (eapply unary_run; apply data_result).
  set (loss := result (built s2) NegBackward0 _ _).
  assert (Hedge : is_Some (edge loss)).
  { assert (Hs2 : grad_enabled (built s2) = true) by exact Hs.
    eapply edge_result_is_Some; [exact Hs2 | left; reflexivity |].
    eapply edge_result_is_Some; [exact Hs2 | left; reflexivity |].
    eapply edge_result_is_Some; [exact Hs2 | right; left; reflexivity |].
    eapply edge_result_is_Some; [exact Hs2 | left; reflexivity |].
    eapply tracks_is_Some.
    apply (forward_tensors_track s2 l0 l2 (tensor z) z mu log_sigma
             (nn.weight l0) Hs).
    left. reflexivity. }
  destruct Hedge as [n Hn].
  unfold bind at 1. unfold backward. rewrite Hn.
  cbn [data loss result storage_of map].
  set (s3 := State _ _ _ _ _ _).
  assert (Hps : forall p, In p (param_groups opt) -> is_Some (params s3 !! p)).
  { intros p Hp. rewrite Hopt in Hp.
    eapply (well_formed_parameters 8 s); eauto. }
  assert (Hlen3 : length (grads s3) = length (params s3)).
  { unfold s3. cbn [grads params]. rewrite length_foldl_accumulate.
    exact Hlen. }
  destruct (updates_run (param_groups opt) (moments_of opt) s3 Hps Hlen3)
    as (st' & s4 & Hup & Hsh & Hg & _ & _ & Hge & Hc).
  unfold step. unfold bind at 1. unfold bind at 1. rewrite Hup.
  unfold ret, bind, zero_grad.
  eexists _, _. split; [reflexivity|].
  cbn [params grads grad_enabled constructed param_groups].
  split; [|split; [|split; [|split]]].
  - eapply well_formed_shapes; [|exact Hwf]. exact Hsh.
  - rewrite Hge. exact Hs.
  - rewrite length_foldl_insert, Hg, Hlen3.
    unfold same_shapes in Hsh.
    rewrite <- (length_map length (params s3)), Hsh, length_map. reflexivity.
  - exact Hopt.
  - rewrite Hc. reflexivity.
Qed.

Lemma loop_run n s m opt :
  well_formed 8 s m -> grad_enabled s = true ->
  length (grads s) = length (params s) ->
  param_groups opt = GaussianModel.parameters m ->
  exists opt' s',
    loop autograd adam n m opt s = Ok opt' s'
    /\ well_formed 8 s' m /\ grad_enabled s' = true
    /\ constructed s' = (n + constructed s)%nat.
Proof.
  revert s opt. induction n as [|n IH]; intros s opt Hwf Hs Hlen Hopt; simpl.
  - exists opt, s. unfold ret. auto.
  - destruct (iteration_run s m opt Hwf Hs Hlen Hopt)
      as (opt1 & s1 & Hit & Hwf1 & Hs1 & Hlen1 & Hopt1 & Hc1).
    destruct (IH s1 opt1 Hwf1 Hs1 Hlen1 Hopt1)
      as (opt' & s' & Hloop & Hwf' & Hs' & Hc').
    exists opt', s'. erewrite bind_run by exact Hit.
    split; [exact Hloop|]. split; [exact Hwf'|]. split; [exact Hs'|]. lia.
Qed.

(** The training loop of the tutorial runs its eight iterations and builds
    one distribution in each. *)
Lemma training_run s m st :
  well_formed 8 s m -> grad_enabled s = true ->
  length (grads s) = length (params s) ->
  exists opt s',
    training autograd adam m st s = Ok opt s'
    /\ well_formed 8 s' m
    /\ constructed s' = (8 + constructed s)%nat.
Proof.
  intros Hwf Hs Hlen. unfold training.
  destruct (loop_run 8 s m
              {| param_groups := GaussianModel.parameters m; moments_of := st |}
              Hwf Hs Hlen eq_refl) as (opt & s' & Hrun & Hwf' & _ & Hc).
  eauto.
Qed.

End TrainingRuns.

Example training_model8 :
  exists opt s',
    training (fun _ _ => []) (fun (st : unit) _ v _ => (v, st)) model8 tt state8
    = Ok opt s'
    /\ well_formed 8 s' model8 /\ constructed s' = 8%nat.
Proof.
  apply (training_run (fun _ _ => []) unit (fun st _ v _ => (v, st))).
  - reflexivity.
  - exact model8_well_formed.
  - reflexivity.
  - reflexivity.
Qed.

Lemma zip_with_map_same (f g : R -> R) (xs : list R) :
  zip_with Rplus (map f xs) (map g xs) = map (fun a => f a + g a) xs.
Proof.
  induction xs as [|a xs IH]; simpl; [reflexivity|]. rewrite IH. reflexivity.
Qed.

(** The log-density of an affine flow of a Normal base, element by
    element. *)
Lemma affine_normal_flow_log_prob s
  (flow : NormalizingFlow.t AffineTransform.t Normal.t) l k mu sigma x xs :
  data s (AffineTransform.loc (NormalizingFlow.transform flow)) = Some [l] ->
  data s (AffineTransform.scale (NormalizingFlow.transform flow)) = Some [k] ->
  data s (Normal.loc (NormalizingFlow.base flow)) = Some [mu] ->
  data s (Normal.scale (NormalizingFlow.base flow)) = Some [sigma] ->
  0 < sigma -> data s x = Some xs ->
  exists r,
    log_prob flow x s = Ok r s
    /\ data s r
       = Some (map (fun a => log_normal mu sigma (affine l k a) + ln (Rabs k))
                 xs).
Proof.
  intros Hl Hk Hmu Hsigma Hpos Hx.
  destruct (AffineTransform_call_run s _ l k x xs Hl Hk Hx) as [e Hcall].
  destruct (AffineTransform_ladj_run s _ k x xs
              (result s AddBackward0
                 [AffineTransform.loc (NormalizingFlow.transform flow); e]
                 (map (affine l k) xs)) Hk Hx) as (ladj & Hladj & Hdata).
  destruct (Normal_log_prob_values s (NormalizingFlow.base flow)
              (result s AddBackward0
                 [AffineTransform.loc (NormalizingFlow.transform flow); e]
                 (map (affine l k) xs)) mu sigma
              (map (affine l k) xs) Hmu Hsigma eq_refl Hpos)
    as (lp & Hlp & Hlpd).
  eexists. split.
  - cbn [log_prob NormalizingFlow_Distribution].
    unfold NormalizingFlow.log_prob.
    erewrite bind_run by exact Hcall.
    erewrite bind_run by exact Hladj.
    erewrite bind_run by exact Hlp.
    unfold torch.add.
    eapply binary_run; [exact Hlpd | exact Hdata |].
    apply broadcast_same. rewrite !length_map. reflexivity.
  - rewrite data_result, map_map. f_equal.
    apply (zip_with_map_same (fun a => log_normal mu sigma (affine l k a))).
Qed.

(** * Further properties of the tutorial's code *)

(** ** What a step does to the state *)

Lemma bind_inv {A B} (m : M A) (k : A -> M B) s b s2 :
  bind m k s = Ok b s2 -> exists a s1, m s = Ok a s1 /\ k a s1 = Ok b s2.
Proof.
  unfold bind. destruct (m s) as [a s1|e]; [|discriminate]. eauto.
Qed.

Lemma unary_state f g a s t s' : torch.unary f g a s = Ok t s' -> s' = s.
Proof.
  unfold torch.unary. destruct (data s a); [|discriminate]. congruence.
Qed.

Lemma binary_state f g a b s t s' :
  torch.binary f g a b s = Ok t s' -> s' = s.
Proof.
  unfold torch.binary. repeat (case_match; try discriminate). congruence.
Qed.

Lemma reduce_state f g a s t s' : torch.reduce f g a s = Ok t s' -> s' = s.
Proof.
  unfold torch.reduce. destruct (data s a); [|discriminate]. congruence.
Qed.

Lemma Normal_log_prob_state d x s t s' :
  Normal.log_prob d x s = Ok t s' -> s' = s.
Proof.
  unfold Normal.log_prob, torch.pow, torch.log, torch.sub, torch.neg,
    torch.mul, torch.div.
  intros H.
  repeat (apply bind_inv in H as (? & ? & Hop & H);
          first [apply unary_state in Hop | apply binary_state in Hop];
          subst).
  apply binary_state in H. exact H.
Qed.

Lemma normal_state mean std s x s' :
  torch.normal mean std s = Ok x s' -> exists n, s' = advance n s.
Proof.
  unfold torch.normal, bind, torch.draw.
  repeat (case_match; try discriminate). intros [= _ <-]. eauto.
Qed.

Lemma writes_only_refl ps s : writes_only ps s s.
Proof. split; [reflexivity | auto]. Qed.

Lemma writes_only_params ps s s' : params s' = params s -> writes_only ps s s'.
Proof.
  intros Hp. unfold writes_only, same_shapes. rewrite Hp. auto.
Qed.

Lemma writes_only_trans ps s1 s2 s3 :
  writes_only ps s1 s2 -> writes_only ps s2 s3 -> writes_only ps s1 s3.
Proof.
  unfold writes_only, same_shapes. intros [Hs1 Hf1] [Hs2 Hf2]. split.
  - congruence.
  - intros q Hq. rewrite Hf2, Hf1 by assumption. reflexivity.
Qed.

Section TrainingFrame.

Variable autograd : node -> addr -> list R.
Variable moments : Type.
Variable adam : moments -> addr -> list R -> list R -> list R * moments.

Lemma update_inv p st s st' s' :
  update adam p st s = Ok st' s' ->
  writes_only [p] s s' /\ grads s' = grads s
  /\ generator s' = generator s /\ constructed s' = constructed s.
Proof.
  unfold update.
  destruct (params s !! p) as [v|] eqn:Hv; [|discriminate].
  destruct (grads s !! p) as [[g|]|]; try discriminate.
  - destruct (adam st p v g) as [v' st1].
    case_decide as Hlen; [|discriminate].
    intros [= _ <-]. cbn [params grads generator constructed].
    split; [|auto]. split.
    + unfold same_shapes; cbn [params].
      change map with (@fmap list _). rewrite list_fmap_insert, Hlen.
      symmetry. apply list_insert_id.
      rewrite list_lookup_fmap, Hv. reflexivity.
    + intros q Hq. apply list_lookup_insert_ne.
      intros ->. apply Hq. left. reflexivity.
  - intros [= _ <-]. split; [apply writes_only_refl | auto].
Qed.

Lemma writes_only_weaken ps ps' s s' :
  (forall q, In q ps -> In q ps') -> writes_only ps s s' ->
  writes_only ps' s s'.
Proof.
  intros Hsub [Hsh Hfr]. split; [exact Hsh|].
  intros q Hq. apply Hfr. intros Hin. apply Hq, Hsub, Hin.
Qed.

Lemma updates_inv ps st s st' s' :
  updates adam ps st s = Ok st' s' ->
  writes_only ps s s' /\ grads s' = grads s
  /\ generator s' = generator s /\ constructed s' = constructed s.
Proof.
  revert st s. induction ps as [|p ps IH]; intros st s; simpl.
  - unfold ret. intros [= _ <-]. split; [apply writes_only_refl | auto].
  - intros H. apply bind_inv in H as (st1 & s1 & Hup & H).
    apply update_inv in Hup as (Hw1 & Hg1 & Hn1 & Hc1).
    apply IH in H as (Hw & Hg & Hn & Hc).
    split; [|repeat split; congruence].
    eapply writes_only_trans.
    + eapply writes_only_weaken; [|exact Hw1].
      intros q [<-|[]]. left. reflexivity.
    + eapply writes_only_weaken; [|exact Hw]. intros q Hq. right. exact Hq.
Qed.

Lemma iteration_inv m opt s opt' s' :
  iteration autograd adam m opt s = Ok opt' s' ->
  writes_only (param_groups opt) s s'
  /\ param_groups opt' = param_groups opt
  /\ constructed s' = S (constructed s).
Proof.
  unfold iteration. intros H.
  apply bind_inv in H as (c & s1 & Hc & H).
  unfold torch.randn, torch.draw, bind, ret in Hc. injection Hc as <- <-.
  apply bind_inv in H as (mn & s2 & Hop & H).
  apply reduce_state in Hop as ->.
  apply bind_inv in H as (a & s2 & Hop & H).
  apply unary_state in Hop as ->.
  apply bind_inv in H as (sd & s2 & Hop & H).
  apply reduce_state in Hop as ->.
  apply bind_inv in H as (x & s2 & Hop & H).
  apply normal_state in Hop as [n ->].
  apply bind_inv in H as (d & s3 & Hop & H).
  apply forward_state in Hop as [-> _].
  apply bind_inv in H as (lp & s4 & Hop & H).
  apply Normal_log_prob_state in Hop as ->.
  apply bind_inv in H as (loss & s4 & Hop & H).
  apply unary_state in Hop as ->.
  apply bind_inv in H as ([] & s4 & Hop & H).
  unfold backward in Hop.
  repeat (case_match; try discriminate). injection Hop as <-.
  apply bind_inv in H as (opt1 & s5 & Hop & H).
  unfold step in Hop. apply bind_inv in Hop as (st1 & s6 & Hup & Hop).
  unfold ret in Hop. injection Hop as <- <-.
  apply updates_inv in Hup as (Hw & _ & _ & Hcount).
  unfold bind, zero_grad, ret in H. injection H as <- <-.
  cbn [params constructed param_groups] in *.
  split; [|split; [reflexivity | exact Hcount]].
  destruct Hw as [Hsh Hfr]. split; [exact Hsh | exact Hfr].
Qed.

Lemma loop_inv n m opt s opt' s' :
  loop autograd adam n m opt s = Ok opt' s' ->
  writes_only (param_groups opt) s s'
  /\ constructed s' = (n + constructed s)%nat.
Proof.
  revert opt s. induction n as [|n IH]; intros opt s; simpl.
  - unfold ret. intros [= _ <-]. split; [apply writes_only_refl | reflexivity].
  - intros H. apply bind_inv in H as (opt1 & s1 & Hit & H).
    apply iteration_inv in Hit as (Hw1 & Hopt & Hc1).
    apply IH in H as (Hw & Hc). rewrite Hopt in Hw. split.
    + eapply writes_only_trans; eassumption.
    + lia.
Qed.

End TrainingFrame.

(** ** The module and its forward pass *)

Lemma Linear_ok_app s s1 tail l :
  params s1 = params s ++ tail -> Linear_ok s l -> Linear_ok s1 l.
Proof.
  unfold Linear_ok. intros Hp Hok.
  destruct (params s !! nn.weight l) as [w|] eqn:Hw; [|tauto].
  destruct (params s !! nn.bias l) as [b|] eqn:Hb; [|tauto].
  rewrite Hp, (lookup_app_l_Some _ _ _ _ Hw), (lookup_app_l_Some _ _ _ _ Hb).
  exact Hok.
Qed.

Lemma well_formed_app context s s1 tail m :
  params s1 = params s ++ tail -> well_formed context s m ->
  well_formed context s1 m.
Proof.
  unfold well_formed. intros Hp Hwf.
  destruct (GaussianModel.hyper m) as [|[l0|] [|[|] [|[l2|] [|? ?]]]];
    try tauto.
  destruct Hwf as (? & ? & ? & ? & Hok0 & Hok2).
  repeat split; try assumption; eapply Linear_ok_app; eauto.
Qed.

(** X1. [GaussianModel(context)] creates four parameters, of 64 * context,
    64, 128 and 2 elements, after the parameters that exist, which it
    leaves as they are; their gradients are unset; a module built earlier
    stays well formed. *)
Theorem init_allocates_parameters context s :
  exists m s1 w0 b0 w2 b2,
    GaussianModel.init context s = Ok m s1
    /\ params s1 = params s ++ [w0; b0; w2; b2]
    /\ length w0 = (64 * context)%nat /\ length b0 = 64%nat
    /\ length w2 = 128%nat /\ length b2 = 2%nat
    /\ grads s1 = grads s ++ [None; None; None; None]
    /\ GaussianModel.parameters m
       = map (fun i => (length (params s) + i)%nat) [0; 1; 2; 3]%nat
    /\ (forall context0 m0,
          well_formed context0 s m0 -> well_formed context0 s1 m0).
Proof.
  unfold GaussianModel.init, nn.Linear_init, bind, torch.draw, nn.Parameter_,
    ret, advance.
  cbn [params grads entropy generator grad_enabled constructed].
  eexists _, _, _, _, _, _. split; [reflexivity|].
  cbn [params grads].
  rewrite <- !app_assoc. cbn [app].
  split; [reflexivity|].
  rewrite !length_map, !length_seq.
  split; [reflexivity|]. split; [reflexivity|]. split; [reflexivity|].
  split; [reflexivity|]. split; [reflexivity|]. split.
  - unfold GaussianModel.parameters, nn.Sequential_parameters.
    cbn [GaussianModel.hyper map nn.layer_parameters concat app nn.weight
         nn.bias].
    rewrite !length_app. cbn [length map]. repeat f_equal; lia.
  - intros context0 m0 Hwf.
    eapply well_formed_app; [|exact Hwf]. cbn [params]. reflexivity.
Qed.

Lemma init_allocates_parameters_witness :
  exists m s1 w0 b0 w2 b2,
    GaussianModel.init 8 state8 = Ok m s1
    /\ params s1 = params state8 ++ [w0; b0; w2; b2]
    /\ length w0 = (64 * 8)%nat /\ length b0 = 64%nat
    /\ length w2 = 128%nat /\ length b2 = 2%nat
    /\ grads s1 = grads state8 ++ [None; None; None; None]
    /\ GaussianModel.parameters m
       = map (fun i => (length (params state8) + i)%nat) [0; 1; 2; 3]%nat
    /\ well_formed 8 s1 model8.
Proof.
  destruct (init_allocates_parameters 8 state8)
    as (m & s1 & w0 & b0 & w2 & b2 & H1 & H2 & H3 & H4 & H5 & H6 & H7 & H8
        & Hkeep).
  exists m, s1, w0, b0, w2, b2.
  repeat (split; [assumption|]).
  apply Hkeep. exact model8_well_formed.
Defined.

(** X2. The forward pass of a well-formed [GaussianModel(context)] returns
    a distribution exactly when the context has [context] elements; a
    context of another size raises a runtime error in the first linear
    layer. *)
Theorem forward_succeeds_iff_context_size context s m c v :
  well_formed context s m -> data s c = Some v ->
  (length v = context <-> exists d s', forward m c s = Ok d s')
  /\ (length v <> context -> forward m c s = Raise RuntimeError).
Proof.
  intros Hwf Hc. split; [split|].
  - intros Hv.
    destruct (forward_run context s m c v Hwf Hc Hv)
      as (l0 & l2 & mu & log_sigma & _ & _ & Hrun).
    eexists _, _. exact Hrun.
  - intros (d & s' & Hrun).
    destruct (decide (length v = context)) as [Hv|Hv]; [exact Hv|].
    cbn [forward GaussianModel_LazyDistribution] in Hrun.
    rewrite (forward_wrong_size context s m c v Hwf Hc Hv) in Hrun.
    discriminate.
  - intros Hv. exact (forward_wrong_size context s m c v Hwf Hc Hv).
Qed.

Lemma forward_succeeds_iff_context_size_witness :
  (length [1; 2; 3] = 8%nat
   <-> exists d s', forward model8 (tensor [1; 2; 3]) state8 = Ok d s')
  /\ (length [1; 2; 3] <> 8%nat ->
      forward model8 (tensor [1; 2; 3]) state8 = Raise RuntimeError).
Proof.
  apply (forward_succeeds_iff_context_size 8 state8 model8
           (tensor [1; 2; 3]) [1; 2; 3]).
  - exact model8_well_formed.
  - reflexivity.
Defined.

(** X3. A forward pass that returns changes nothing but the count of built
    objects: it writes no parameter and no gradient, draws nothing from
    the generator and leaves the gradient mode as it is. *)
Theorem forward_changes_only_object_count m c s d s' :
  forward m c s = Ok d s' ->
  params s' = params s /\ grads s' = grads s
  /\ entropy s' = entropy s /\ generator s' = generator s
  /\ grad_enabled s' = grad_enabled s
  /\ constructed s' = S (constructed s).
Proof.
  intros Hrun. apply forward_state in Hrun as [-> _].
  repeat split; reflexivity.
Qed.

Lemma forward_changes_only_object_count_witness :
  exists d s',
    forward model8 (tensor (repeat 0 8)) state8 = Ok d s'
    /\ params s' = params state8 /\ grads s' = grads state8
    /\ entropy s' = entropy state8 /\ generator s' = generator state8
    /\ grad_enabled s' = grad_enabled state8
    /\ constructed s' = S (constructed state8).
Proof.
  destruct (forward_run 8 state8 model8 (tensor (repeat 0 8)) (repeat 0 8)
              model8_well_formed eq_refl eq_refl)
    as (l0 & l2 & mu & log_sigma & _ & _ & Hrun).
  eexists _, _. split; [exact Hrun|].
  exact (forward_changes_only_object_count model8 _ state8 _ _ Hrun).
Defined.

(** ** The training loop, as a whole *)

(** X4. The training loop of the tutorial, started on a well-formed
    [GaussianModel(8)] with gradients enabled and an update rule that
    keeps the shape of a parameter, runs its eight iterations without an
    exception, builds eight distributions and leaves the module well
    formed. *)
Theorem training_loop_completes autograd moments
  (adam : moments -> addr -> list R -> list R -> list R * moments) s m st :
  (forall st p v g, length (adam st p v g).1 = length v) ->
  well_formed 8 s m -> grad_enabled s = true ->
  length (grads s) = length (params s) ->
  exists opt s',
    training autograd adam m st s = Ok opt s'
    /\ well_formed 8 s' m
    /\ grad_enabled s' = true
    /\ constructed s' = (8 + constructed s)%nat.
Proof.
  intros Hadam Hwf Hs Hlen. unfold training.
  destruct (loop_run autograd moments adam Hadam 8 s m
              {| param_groups := GaussianModel.parameters m;
                 moments_of := st |} Hwf Hs Hlen eq_refl)
    as (opt & s' & Hrun & Hwf' & Hs' & Hc).
  exists opt, s'. auto.
Qed.

Lemma training_loop_completes_witness :
  exists opt s',
    training (fun _ _ => []) (fun (st : unit) _ v _ => (v, st)) model8 tt state8
    = Ok opt s'
    /\ well_formed 8 s' model8
    /\ grad_enabled s' = true
    /\ constructed s' = (8 + constructed state8)%nat.
Proof.
  apply (training_loop_completes (fun _ _ => []) unit
           (fun st _ v _ => (v, st)) state8 model8 tt).
  - reflexivity.
  - exact model8_well_formed.
  - reflexivity.
  - reflexivity.
Defined.

(** X5. Whatever the update rule, a run of the training loop that returns
    has written no parameter other than those of the module it trains and
    has changed the shape of no parameter. *)
Theorem training_writes_only_model_parameters autograd moments
  (adam : moments -> addr -> list R -> list R -> list R * moments)
  m st s opt s' :
  training autograd adam m st s = Ok opt s' ->
  same_shapes s s'
  /\ (forall q, ~ In q (GaussianModel.parameters m) ->
        params s' !! q = params s !! q).
Proof.
  unfold training. intros Hrun.
  apply loop_inv in Hrun as [Hw _]. exact Hw.
Qed.

Lemma training_writes_only_model_parameters_witness :
  exists opt s',
    training (fun _ _ => []) (fun (st : unit) _ v _ => (v, st)) model8 tt state8
    = Ok opt s'
    /\ same_shapes state8 s'
    /\ (forall q, ~ In q (GaussianModel.parameters model8) ->
          params s' !! q = params state8 !! q).
Proof.
  destruct training_model8 as (opt & s' & Hrun & _).
  exists opt, s'. split; [exact Hrun|].
  exact (training_writes_only_model_parameters _ _ _ _ _ _ _ _ Hrun).
Defined.

(** ** One iteration: the target and the loss *)

Lemma reduce_run f g a s x :
  data s a = Some x ->
  torch.reduce f g a s = Ok (result s f [a] [g x]) s.
Proof. intros Ha. unfold torch.reduce. rewrite Ha. reflexivity. Qed.

Lemma prod_abs_zero (z : list R) :
  In 0 z -> foldr Rmult 1 (map Rabs z) = 0.
Proof.
  induction z as [|a z IH]; simpl; [tauto|].
  intros [->|Hin].
  - rewrite Rabs_R0. ring.
  - rewrite IH by exact Hin. ring.
Qed.

(** X6. The target of an iteration, [torch.normal(torch.sum(c),
    torch.prod(torch.abs(c)))], is never refused, whatever the context:
    the standard deviation, a product of absolute values, is not
    negative.  Its value is the sum of c plus that product times one draw
    of the generator; when an element of c is zero it is the sum of c. *)
Theorem target_draw_never_refused s c z :
  data s c = Some z ->
  exists x,
    (m <- torch.sum c ;; a <- torch.abs c ;; sd <- torch.prod a ;;
     torch.normal m sd) s = Ok x (advance 1 s)
    /\ data (advance 1 s) x
       = Some [foldr Rplus 0 z
               + foldr Rmult 1 (map Rabs z) * entropy s (generator s)]
    /\ 0 <= foldr Rmult 1 (map Rabs z)
    /\ (In 0 z -> data (advance 1 s) x = Some [foldr Rplus 0 z + 0]).
Proof.
  intros Hc. eexists.
  unfold torch.sum, torch.abs, torch.prod.
  erewrite bind_run by (apply reduce_run; exact Hc).
  erewrite bind_run by (apply unary_run; exact Hc).
  erewrite bind_run by (apply reduce_run; apply data_result).
  erewrite normal_run;
    [| apply data_result | apply data_result | apply prod_abs_nonneg].
  split; [reflexivity|]. split; [reflexivity|].
  split; [apply prod_abs_nonneg|].
  intros Hzero. rewrite data_result, (prod_abs_zero z Hzero).
  do 2 f_equal. ring.
Qed.

Lemma target_draw_never_refused_witness :
  exists x,
    (m <- torch.sum (tensor [3; 0; -2]) ;; a <- torch.abs (tensor [3; 0; -2]) ;;
     sd <- torch.prod a ;; torch.normal m sd) fresh = Ok x (advance 1 fresh)
    /\ data (advance 1 fresh) x
       = Some [foldr Rplus 0 [3; 0; -2]
               + foldr Rmult 1 (map Rabs [3; 0; -2])
                 * entropy fresh (generator fresh)]
    /\ 0 <= foldr Rmult 1 (map Rabs [3; 0; -2])
    /\ (In 0 [3; 0; -2] ->
        data (advance 1 fresh) x = Some [foldr Rplus 0 [3; 0; -2] + 0]).
Proof.
  apply (target_draw_never_refused fresh (tensor [3; 0; -2]) [3; 0; -2]).
  reflexivity.
Defined.




(** ** A sample and its log-density *)

(** X8. The second cell of the tutorial, [x = distribution.sample()]
    followed by [distribution.log_prob(x)], for a Normal distribution of
    location mu and scale sigma: x is mu + sigma * e for the draw e of the
    generator, and the log-density found is
    -e^2 / 2 - log(sigma * sqrt(2 pi)), the same for every location. *)
Theorem Normal_log_prob_of_sample s (d : Normal.t) mu sigma :
  data s (Normal.loc d) = Some [mu] ->
  data s (Normal.scale d) = Some [sigma] ->
  0 < sigma ->
  exists x lp,
    (x <- sample d ;; lp <- log_prob d x ;; ret (x, lp)) s
    = Ok (x, lp) (advance 1 s)
    /\ data (advance 1 s) x = Some [mu + sigma * entropy s (generator s)]
    /\ data (advance 1 s) lp
       = Some [- entropy s (generator s) ^ 2 / 2
               - ln (sigma * sqrt (2 * PI))].
Proof.
  intros Hloc Hscale Hsigma.
  destruct (Normal_sample_run s d mu sigma Hloc Hscale)
    as (x & Hx & Hdata & _); [lra|].
  destruct (Normal_log_prob_values (advance 1 s) d x mu sigma _
              Hloc Hscale Hdata Hsigma) as (lp & Hlp & Hlpd).
  exists x, lp. split; [|split].
  - cbn [sample Normal_Distribution].
    erewrite bind_run by exact Hx.
    erewrite bind_run by exact Hlp. reflexivity.
  - exact Hdata.
  - rewrite Hlpd. cbn [map]. rewrite log_normal_at_draw by exact Hsigma.
    reflexivity.
Qed.

Lemma Normal_log_prob_of_sample_witness :
  exists x lp,
    (x <- sample standard_normal ;; lp <- log_prob standard_normal x ;;
     ret (x, lp)) fresh = Ok (x, lp) (advance 1 fresh)
    /\ data (advance 1 fresh) x
       = Some [0 + 1 * entropy fresh (generator fresh)]
    /\ data (advance 1 fresh) lp
       = Some [- entropy fresh (generator fresh) ^ 2 / 2
               - ln (1 * sqrt (2 * PI))].
Proof.
  apply (Normal_log_prob_of_sample fresh standard_normal 0 1).
  - reflexivity.
  - reflexivity.
  - lra.
Defined.

(** ** The flow of the tutorial *)

(** X9. A flow that pushes a Normal base of location mu and scale sigma
    through an affine transformation of location l and nonzero scale k
    has, at every point, the log-density of the Normal distribution of
    location (mu - l) / k and scale sigma / |k|. *)
Theorem affine_flow_of_normal_is_normal s
  (flow : NormalizingFlow.t AffineTransform.t Normal.t) l k mu sigma x xs :
  data s (AffineTransform.loc (NormalizingFlow.transform flow)) = Some [l] ->
  data s (AffineTransform.scale (NormalizingFlow.transform flow)) = Some [k] ->
  data s (Normal.loc (NormalizingFlow.base flow)) = Some [mu] ->
  data s (Normal.scale (NormalizingFlow.base flow)) = Some [sigma] ->
  0 < sigma -> k <> 0 -> data s x = Some xs ->
  exists r,
    log_prob flow x s = Ok r s
    /\ data s r
       = Some (map (log_normal ((mu - l) / k) (sigma / Rabs k)) xs).
Proof.
  intros Hl Hk Hmu Hsigma Hpos Hk0 Hx.
  destruct (affine_normal_flow_log_prob s flow l k mu sigma x xs
              Hl Hk Hmu Hsigma Hpos Hx) as (r & Hrun & Hdata).
  exists r. split; [exact Hrun|]. rewrite Hdata. f_equal.
  apply map_ext. intros a. apply affine_flow_is_normal; assumption.
Qed.

Lemma affine_flow_of_normal_is_normal_witness :
  exists r,
    log_prob flow23 (tensor [0; 1]) fresh = Ok r fresh
    /\ data fresh r
       = Some (map (log_normal ((0 - 2) / 3) (1 / Rabs 3)) [0; 1]).
Proof.
  apply (affine_flow_of_normal_is_normal fresh flow23 2 3 0 1
           (tensor [0; 1]) [0; 1]).
  - reflexivity.
  - reflexivity.
  - reflexivity.
  - reflexivity.
  - lra.
  - lra.
  - reflexivity.
Defined.

(** X10. The cell [x = flow.sample()] followed by [flow.log_prob(x)], for
    the same kind of flow: x is (z - l) / k for the value z = mu + sigma * e
    that the base drew, the forward call brings x back to z, and the
    log-density found is -e^2 / 2 - log(sigma * sqrt(2 pi)) + log |k|. *)
Theorem flow_log_prob_of_sample s
  (flow : NormalizingFlow.t AffineTransform.t Normal.t) l k mu sigma :
  data s (AffineTransform.loc (NormalizingFlow.transform flow)) = Some [l] ->
  data s (AffineTransform.scale (NormalizingFlow.transform flow)) = Some [k] ->
  data s (Normal.loc (NormalizingFlow.base flow)) = Some [mu] ->
  data s (Normal.scale (NormalizingFlow.base flow)) = Some [sigma] ->
  0 < sigma -> k <> 0 ->
  exists x lp,
    (x <- sample flow ;; lp <- log_prob flow x ;; ret (x, lp)) s
    = Ok (x, lp) (advance 1 s)
    /\ data (advance 1 s) x
       = Some [(mu + sigma * entropy s (generator s) - l) / k]
    /\ data (advance 1 s) lp
       = Some [- entropy s (generator s) ^ 2 / 2
               - ln (sigma * sqrt (2 * PI)) + ln (Rabs k)].
Proof.
  intros Hl Hk Hmu Hsigma Hpos Hk0.
  set (e := entropy s (generator s)).
  set (s0 := State (params s) (grads s) (entropy s) (generator s) false
               (constructed s)).
  destruct (Normal_sample_run s0 (NormalizingFlow.base flow) mu sigma
              Hmu Hsigma) as (z & Hz & Hzd & _); [lra|].
  destruct (AffineTransform_inverse_run (advance 1 s0)
              (NormalizingFlow.transform flow) l k z _ Hl Hk Hzd)
    as (dz & Hinv).
  set (x := result (advance 1 s0) DivBackward0 _ _) in Hinv.
  destruct (affine_normal_flow_log_prob (advance 1 s) flow l k mu sigma x
              [(mu + sigma * e - l) / k] Hl Hk Hmu Hsigma Hpos eq_refl)
    as (lp & Hlp & Hlpd).
  exists x, lp. split; [|split].
  - erewrite bind_run.
    2:{ cbn [sample NormalizingFlow_Distribution].
        unfold NormalizingFlow.sample.
        apply (no_grad_run _ s x (advance 1 s0)).
        erewrite bind_run by exact Hz. exact Hinv. }
    erewrite bind_run by exact Hlp. reflexivity.
  - reflexivity.
  - rewrite Hlpd. cbn [map].
    replace (affine l k ((mu + sigma * e - l) / k)) with (mu + sigma * e)
      by (unfold affine; field; exact Hk0).
    rewrite log_normal_at_draw by exact Hpos. reflexivity.
Qed.

Lemma flow_log_prob_of_sample_witness :
  exists x lp,
    (x <- sample flow23 ;; lp <- log_prob flow23 x ;; ret (x, lp)) fresh
    = Ok (x, lp) (advance 1 fresh)
    /\ data (advance 1 fresh) x
       = Some [(0 + 1 * entropy fresh (generator fresh) - 2) / 3]
    /\ data (advance 1 fresh) lp
       = Some [- entropy fresh (generator fresh) ^ 2 / 2
               - ln (1 * sqrt (2 * PI)) + ln (Rabs 3)].
Proof.
  apply (flow_log_prob_of_sample fresh flow23 2 3 0 1).
  - reflexivity.
  - reflexivity.
  - reflexivity.
  - reflexivity.
  - lra.
  - lra.
Defined.

(** ** The last layer of the hyper-network *)





(** ** When an iteration fails *)

(** X12. An iteration of the training loop raises a runtime error when
    gradients are disabled (the loss is attached to no graph and
    [backward] refuses it) and when the module was built for a context
    size other than 8 (the first linear layer refuses the context). *)
Theorem iteration_refusals autograd moments
  (adam : moments -> addr -> list R -> list R -> list R * moments)
  context s m opt :
  well_formed context s m ->
  (context = 8%nat -> grad_enabled s = false ->
   iteration autograd adam m opt s = Raise RuntimeError)
  /\ (context <> 8%nat ->
      iteration autograd adam m opt s = Raise RuntimeError).
Proof.
  intros Hwf. unfold iteration.
  erewrite bind_run by reflexivity.
  erewrite bind_run by reflexivity.
  erewrite bind_run by reflexivity.
  erewrite bind_run by reflexivity.
  erewrite bind_run
    by (eapply normal_run; [reflexivity | reflexivity | apply prod_abs_nonneg]).
  set (z := map (entropy s) (seq (generator s) 8)).
  set (s2 := advance 1 (advance 8 s)).
  set (x := result s2 NormalBackward _ _).
  assert (Hwf2 : well_formed context s2 m).
  { eapply well_formed_shapes; [|exact Hwf]. reflexivity. }
  split.
  - intros -> Hs.
    destruct (forward_run 8 s2 m (tensor z) z Hwf2 eq_refl eq_refl)
      as (l0 & l2 & mu & log_sigma & _ & _ & Hrun).
    erewrite bind_run by exact Hrun.
    set (d := {| Normal.loc := mu_t s2 l0 l2 (tensor z) z mu;
                 Normal.scale := sigma_t s2 l0 l2 (tensor z) z log_sigma;
                 Normal.serial := constructed s2 |}).
    destruct (Normal_log_prob_run (built s2) d x mu (exp log_sigma) _
                eq_refl eq_refl eq_refl) as [q Hlp].
    erewrite bind_run by exact Hlp.
    unfold torch.neg.
    erewrite bind_run by (eapply unary_run; apply data_result).
    apply bind_raise. unfold backward.
    rewrite edge_result, grad_fn_result_no_grad by exact Hs. reflexivity.
  - intros Hcontext. apply bind_raise.
    apply (forward_wrong_size context s2 m (tensor z) z Hwf2 eq_refl).
    unfold z. rewrite length_map, length_seq. congruence.
Qed.

Lemma iteration_refusals_witness :
  (8%nat = 8%nat ->
   grad_enabled (State (params state8) (grads state8) (entropy state8)
                   (generator state8) false (constructed state8)) = false ->
   iteration (fun _ _ => []) (fun (st : unit) _ v _ => (v, st)) model8
     {| param_groups := GaussianModel.parameters model8; moments_of := tt |}
     (State (params state8) (grads state8) (entropy state8)
        (generator state8) false (constructed state8))
   = Raise RuntimeError)
  /\ (8%nat <> 8%nat ->
      iteration (fun _ _ => []) (fun (st : unit) _ v _ => (v, st)) model8
        {| param_groups := GaussianModel.parameters model8; moments_of := tt |}
        (State (params state8) (grads state8) (entropy state8)
           (generator state8) false (constructed state8))
      = Raise RuntimeError).
Proof.
  apply (iteration_refusals (fun _ _ => []) unit (fun st _ v _ => (v, st)) 8).
  unfold well_formed, Linear_ok; simpl. repeat split; reflexivity.
Defined.
